(** * DelayBot: the time-expression validator [DelayBot.get_time]

    A shallow embedding of [src/DelayBot.py].  The validator is the method
    [get_time] of the class [DelayBot]; it reads the tables built by
    [__init__] ([blockLimits], [meridiems], [clockLimits], the two compiled
    patterns), writes to [self.clockLimits], prints diagnostics and returns
    [True] or [False].

    Tokens are Python 2 byte strings ([str]): a list of 8-bit characters, on
    which [upper] and [isdigit] act on the ASCII letters and digits only.  A
    [unicode] token of ASCII characters behaves as the [str] of the same
    characters; other [unicode] tokens are not modelled. *)

From Stdlib Require Import String Ascii List ListDec Permutation ZArith Lia Bool
  Arith.
Import ListNotations.

(* ================================================================== *)
(** ** Byte strings and the [str] methods the validator calls *)
(* ================================================================== *)

(** Python 2 [str]. *)
Abbreviation str := (list ascii) (only parsing).

(** A literal of the source, ["12:59AM"]. *)
Definition lit (s : string) : str := list_ascii_of_string s.

Definition code (c : ascii) : N := N_of_ascii c.

Definition in_range (lo hi : ascii) (c : ascii) : bool :=
  ((code lo <=? code c) && (code c <=? code hi))%N.

Definition isdigit_c : ascii -> bool := in_range "0" "9".
Definition islower_c : ascii -> bool := in_range "a" "z".

Definition upper_c (c : ascii) : ascii :=
  if islower_c c then ascii_of_N (code c - 32) else c.

(** [s.upper()] *)
Definition upper (s : str) : str := map upper_c s.

(** [s.isdigit()]: at least one character, and all of them digits. *)
Definition isdigit (s : str) : bool :=
  match s with
  | [] => false
  | _ => forallb isdigit_c s
  end.

Definition eqb_c (a b : ascii) : bool := Ascii.eqb a b.

Arguments eqb_c : simpl never.
Arguments in_range : simpl never.
Arguments isdigit_c : simpl never.
Arguments upper_c : simpl never.

Fixpoint eqb_str (a b : str) : bool :=
  match a, b with
  | [], [] => true
  | x :: a', y :: b' => eqb_c x y && eqb_str a' b'
  | _, _ => false
  end.

(** [c in s] for a one-character [c], [c in tally] for a list of characters. *)
Definition mem_c (c : ascii) (s : list ascii) : bool := existsb (eqb_c c) s.

(** [s in collection] for a collection of strings. *)
Definition mem_str (s : str) (l : list str) : bool := existsb (eqb_str s) l.

(** [s.split(sep)] with a one-character separator: never empty, and one
    more piece than there are separators. *)
Fixpoint split (sep : ascii) (s : str) : list str :=
  match s with
  | [] => [[]]
  | c :: s' =>
      if eqb_c c sep then [] :: split sep s'
      else match split sep s' with
           | piece :: pieces => (c :: piece) :: pieces
           | [] => [[c]]
           end
  end.

(** [sep.join(pieces)] *)
Fixpoint join (sep : ascii) (pieces : list str) : str :=
  match pieces with
  | [] => []
  | [p] => p
  | p :: ps => p ++ sep :: join sep ps
  end.

(** The value of a run of decimal digits. *)
Definition digit_val (c : ascii) : Z := Z.of_N (code c) - 48.

Definition dec_val (s : str) : Z :=
  fold_left (fun acc c => 10 * acc + digit_val c)%Z s 0%Z.

Definition isspace_c (c : ascii) : bool :=
  ((code c =? 32) || ((9 <=? code c) && (code c <=? 13)))%N.

Arguments isspace_c : simpl never.

Fixpoint lstrip (s : str) : str :=
  match s with
  | c :: s' => if isspace_c c then lstrip s' else s
  | [] => []
  end.

Definition strip (s : str) : str := rev (lstrip (rev (lstrip s))).

(** What [int(s)] accepts in base 10: blanks around, one optional sign,
    then digits only.  [None] is Python's [ValueError]. *)
Definition parse_int (s : str) : option Z :=
  let body := strip s in
  let '(sign, digits) :=
    match body with
    | c :: t =>
        if eqb_c c "+" then (1%Z, t)
        else if eqb_c c "-" then ((-1)%Z, t)
        else (1%Z, body)
    | [] => (1%Z, body)
    end in
  if isdigit digits then Some (sign * dec_val digits)%Z else None.

(* ================================================================== *)
(** ** The fragment of [re] the two patterns use *)
(* ================================================================== *)

Inductive regex : Type :=
| Class (p : ascii -> bool)              (* a bracket expression *)
| Cat (a b : regex)                      (* a b                  *)
| Repeat (lo hi : nat) (a : regex)       (* a{lo,hi}, greedy     *)
| Bol                                    (* ^                    *)
| Eol.                                   (* $                    *)

(** A greedy bounded repetition of the matcher [ma], between [lo] and [hi]
    times: one more iteration is tried first, and the continuation [k] is
    the fall-back once [lo] iterations are done. *)
Section Repetition.

Context {A : Type}.
Variable ma : nat -> str -> (nat -> str -> option A) -> option A.
Variable k : nat -> str -> option A.

Fixpoint rep (lo hi pos : nat) (s : str) {struct hi} : option A :=
  match hi with
  | O => match lo with O => k pos s | S _ => None end
  | S hi' =>
      match ma pos s (rep (pred lo) hi') with
      | Some x => Some x
      | None => match lo with O => k pos s | S _ => None end
      end
  end.

End Repetition.

(** The backtracking matcher: [rmatch r pos s k] matches [r] at offset [pos],
    where [s] is what is left of the subject, and hands the offset and the
    rest to the continuation [k].  [$] holds at the end of the subject and
    just before a newline that ends it. *)
Fixpoint rmatch {A : Type} (r : regex) (pos : nat) (s : str)
    (k : nat -> str -> option A) {struct r} : option A :=
  match r with
  | Class p =>
      match s with
      | c :: s' => if p c then k (S pos) s' else None
      | [] => None
      end
  | Cat a b => rmatch a pos s (fun pos' s' => rmatch b pos' s' k)
  | Repeat lo hi a => rep (rmatch a) k lo hi pos s
  | Bol => match pos with O => k pos s | S _ => None end
  | Eol =>
      match s with
      | [] => k pos s
      | [c] => if eqb_c c "010" then k pos s else None
      | _ => None
      end
  end.

(** [pattern.match(s)], as a truth value. *)
Definition re_match (r : regex) (s : str) : bool :=
  match rmatch r 0 s (fun _ _ => Some tt) with
  | Some _ => true
  | None => false
  end.

(** [pattern.findall(s)] for a pattern without groups: the matches from left
    to right, none overlapping.  [skip] counts the characters of the last
    match still to be stepped over. *)
Fixpoint findall_from (r : regex) (pos skip : nat) (s : str) {struct s}
    : list str :=
  match skip with
  | S skip' =>
      match s with
      | [] => []
      | _ :: s' => findall_from r (S pos) skip' s'
      end
  | O =>
      match rmatch r pos s (fun pos' _ => Some pos') with
      | Some pos' =>
          firstn (pos' - pos) s ::
          match s with
          | [] => []
          | _ :: s' => findall_from r (S pos) (pos' - pos - 1) s'
          end
      | None =>
          match s with
          | [] => []
          | _ :: s' => findall_from r (S pos) 0 s'
          end
      end
  end.

Definition findall (r : regex) (s : str) : list str := findall_from r 0 0 s.

(** A bracket expression listing its members, [[HMDS]]. *)
Definition one_of (members : string) : ascii -> bool :=
  fun c => mem_c c (lit members).

Arguments one_of : simpl never.

(** [regexp = "[0-9]{1,2}[HMDS]{1}"] *)
Definition regexp : regex :=
  Cat (Repeat 1 2 (Class (in_range "0" "9")))
      (Repeat 1 1 (Class (one_of "HMDS"))).

(** [re.compile("^(%s){1,4}$" % regexp)] *)
Definition blockRegexpMatch : regex :=
  Cat Bol (Cat (Repeat 1 4 regexp) Eol).

(** [re.compile(regexp)] *)
Definition blockRegexpFind : regex := regexp.

(* ================================================================== *)
(** ** The validator object, its output and its control flow *)
(* ================================================================== *)

(** The attributes of [self] that [get_time] reads or writes. *)
Record DelayBot : Type := mkBot {
  blockLimits : list (ascii * Z);   (* a dict, unit letter to limit *)
  meridiems : list str;             (* a set of strings             *)
  clockLimits : list Z              (* a list, assigned by index    *)
}.

(** One constructor per [print] statement of [get_time], carrying the
    values the statement formats.  The function returns a bare [False]; the
    line printed just before is the only trace of the reason, the
    diagnostic kind of the specification. *)
Inductive printed : Type :=
| NotAValidFormat                    (* "not a valid format!"        UnrecognizedSyntax *)
| DefinedTwice                       (* "You defined a time twice!"  DuplicateUnit      *)
| ValueIsTooHigh                     (* "Value is too high!"         MagnitudeTooHigh   *)
| NotAMeridiem (ending : str)        (* "%s is not a merdiem"        InvalidMeridiem    *)
| EndingAndLast (ending last : str)  (* print ending, arg[-1]                           *)
| MissingValues                      (* "Missing Values!"            WrongFieldCount    *)
| NonNumericValue                    (* "Non-numeric value!"         NonNumeric         *)
| ValueTooHigh (value : str) (limit : Z) (x : nat).
                                     (* "Value too high %s, %s, %s!" MagnitudeTooHigh   *)

Inductive exn : Type := ValueError | KeyError | IndexError.

Record world : Type := mkWorld {
  self : DelayBot;
  stdout : list printed
}.

(** A statement either falls through to the next one with a value, leaves
    the function by [return], or raises. *)
Inductive flow (A : Type) : Type :=
| Next (a : A)
| Return (b : bool)
| Raise (e : exn).

Arguments Next {A} a.
Arguments Return {A} b.
Arguments Raise {A} e.

Definition M (A : Type) : Type := world -> flow A * world.

Definition pure {A} (a : A) : M A := fun w => (Next a, w).

Definition bind {A B} (m : M A) (f : A -> M B) : M B :=
  fun w =>
    match m w with
    | (Next a, w') => f a w'
    | (Return b, w') => (Return b, w')
    | (Raise e, w') => (Raise e, w')
    end.

Declare Scope py_scope.
Delimit Scope py_scope with py.
Notation "x <- m ;; k" := (bind m (fun x => k))
  (at level 61, m at next level, right associativity) : py_scope.
Notation "m ;;; k" := (bind m (fun _ => k))
  (at level 61, right associativity) : py_scope.
Open Scope py_scope.

Definition return_ {A} (b : bool) : M A := fun w => (Return b, w).
Definition raise {A} (e : exn) : M A := fun w => (Raise e, w).

Definition print (p : printed) : M unit :=
  fun w => (Next tt, mkWorld (self w) (stdout w ++ [p])).

Definition get_self : M DelayBot := fun w => (Next (self w), w).

(** [int(s)] *)
Definition int_ (s : str) : M Z :=
  match parse_int s with
  | Some n => pure n
  | None => raise ValueError
  end.

(** [seq[-1]] *)
Definition getitem_last {A} (l : list A) : M A :=
  match rev l with
  | a :: _ => pure a
  | [] => raise IndexError
  end.

(** [d[key]] on a dict *)
Fixpoint dict_getitem (d : list (ascii * Z)) (key : ascii) : M Z :=
  match d with
  | (k, v) :: d' => if eqb_c key k then pure v else dict_getitem d' key
  | [] => raise KeyError
  end.

(** [l[x]] on a list *)
Definition list_getitem (l : list Z) (x : nat) : M Z :=
  match nth_error l x with
  | Some v => pure v
  | None => raise IndexError
  end.

(** [self.clockLimits[0] = v]: the shared list is updated in place. *)
Definition set_clockLimits_0 (v : Z) : M unit :=
  fun w =>
    match clockLimits (self w) with
    | _ :: limits =>
        (Next tt,
         mkWorld (mkBot (blockLimits (self w)) (meridiems (self w)) (v :: limits))
                 (stdout w))
    | [] => (Raise IndexError, w)
    end.

(** [new_bot = DelayBot(...)]: the attributes [__init__] gives a new
    validator. *)
Definition new_bot : DelayBot := {|
  blockLimits := [("D"%char, 1%Z); ("H"%char, 24%Z); ("M"%char, 60%Z); ("S"%char, 60%Z)];
  meridiems := [lit "AM"; lit "PM"; lit "A.M."; lit "P.M."; lit ""];
  clockLimits := [23%Z; 59%Z; 59%Z]
|}.

(* ================================================================== *)
(** ** [get_time] *)
(* ================================================================== *)

Inductive format : Type := block | clock.

(** Lines 103-110: the pattern is tried first, then the colon. *)
Definition classify (arg : str) : M format :=
  if re_match blockRegexpMatch arg then pure block
  else if mem_c ":" arg then pure clock
  else print NotAValidFormat ;;; return_ false.

(** Lines 118-130: [for value in arg], with the local list [tally]. *)
Fixpoint block_loop (values : list str) (tally : list ascii) : M unit :=
  match values with
  | [] => pure tt
  | value :: values' =>
      char <- getitem_last value ;;
      if mem_c char tally then
        print DefinedTwice ;;; return_ false
      else
        let tally := tally ++ [char] in
        n <- int_ (removelast value) ;;
        me <- get_self ;;
        limit <- dict_getitem (blockLimits me) char ;;
        if (n >? limit)%Z then
          print ValueIsTooHigh ;;; return_ false
        else block_loop values' tally
  end.

(** Lines 154-163: [for x, value in enumerate(arg)]. *)
Fixpoint clock_loop (x : nat) (values : list str) : M unit :=
  match values with
  | [] => pure tt
  | value :: values' =>
      if negb (isdigit value) then
        print NonNumericValue ;;; return_ false
      else
        n <- int_ value ;;
        me <- get_self ;;
        limit <- list_getitem (clockLimits me) x ;;
        if (n >? limit)%Z then
          print (ValueTooHigh value limit x) ;;; return_ false
        else clock_loop (S x) values'
  end.

(** Lines 136-163, on the list that [arg.split(":")] gave. *)
Definition clock_fields (arg : list str) : M unit :=
  last_ <- getitem_last arg ;;
  let ending := skipn 2 last_ in
  me <- get_self ;;
  if negb (mem_str ending (meridiems me)) then
    print (NotAMeridiem ending) ;;; return_ false
  else
    (if negb (eqb_str ending [])
     then set_clockLimits_0 12 ;;; print (EndingAndLast ending last_)
     else pure tt) ;;;
    let arg := removelast arg ++ [firstn 2 last_] in
    if negb (Nat.eqb (List.length arg) 2 || Nat.eqb (List.length arg) 3) then
      print MissingValues ;;; return_ false
    else clock_loop 0 arg.

(** Line 134 and what follows it. *)
Definition clock_branch (arg : str) : M unit :=
  let arg := split ":" arg in
  clock_fields arg.

Definition get_time_body (arg : str) : M bool :=
  let arg := upper arg in
  fmt <- classify arg ;;
  match fmt with
  | block => block_loop (findall blockRegexpFind arg) []
  | clock => clock_branch arg
  end ;;;
  pure true.

Inductive result : Type := Ok (b : bool) | Err (e : exn).

(** What a call leaves behind: the value returned (or the exception raised),
    the validator afterwards, and what was printed. *)
Record outcome : Type := mkOutcome {
  ret : result;
  bot : DelayBot;
  out : list printed
}.

Definition outcome_of (r : flow bool * world) : outcome :=
  match r with
  | (Next b, w) => mkOutcome (Ok b) (self w) (stdout w)
  | (Return b, w) => mkOutcome (Ok b) (self w) (stdout w)
  | (Raise e, w) => mkOutcome (Err e) (self w) (stdout w)
  end.

(** A call [me.get_time(arg)], with nothing printed yet. *)
Definition get_time (me : DelayBot) (arg : str) : outcome :=
  outcome_of (get_time_body arg (mkWorld me [])).

(** The validator after it has judged the tokens of [calls], in order. *)
Definition after (me : DelayBot) (calls : list str) : DelayBot :=
  fold_left (fun b arg => bot (get_time b arg)) calls me.

(* ================================================================== *)
(** ** [parse_command], [send_message] and [respond] *)
(* ================================================================== *)

Definition isupper_c : ascii -> bool := in_range "A" "Z".

Definition lower_c (c : ascii) : ascii :=
  if isupper_c c then ascii_of_N (code c + 32) else c.

Arguments lower_c : simpl never.

(** [s.lower()] *)
Definition lower (s : str) : str := map lower_c s.

(** A dict with string keys and string values, as the message of a stream
    is. *)
Abbreviation dict := (list (list ascii * list ascii)) (only parsing).

(** [d[key]], [None] for Python's [KeyError]. *)
Fixpoint lookup (d : dict) (key : str) : option str :=
  match d with
  | (k, v) :: d' => if eqb_str key k then Some v else lookup d' key
  | [] => None
  end.

(** [d[key] = v] *)
Fixpoint store (d : dict) (key v : str) : dict :=
  match d with
  | (k, v0) :: d' =>
      if eqb_str key k then (k, v) :: d' else (k, v0) :: store d' key v
  | [] => [(key, v)]
  end.

(** What these methods can raise: what [get_time] can, the division of
    line 73, and the decoding of a [str] that line 173 adds to a
    [unicode]. *)
Inductive exception : Type :=
| Builtin (e : exn)
| ZeroDivisionError
| UnicodeDecodeError.

(** The bot at work: the key word and the validator attributes of [self],
    the lines printed, the dicts handed to [self.client.send_message]
    (oldest first), and the dict that the parameter [msg] names, which
    line 75 updates in place. *)
Record process : Type := mkProcess {
  key_word : str;
  validator : DelayBot;
  console : list printed;
  sent : list dict;
  msg : dict
}.

Definition P (A : Type) : Type := process -> (A + exception) * process.

Definition pure_P {A} (a : A) : P A := fun p => (inl a, p).

Definition bind_P {A B} (m : P A) (f : A -> P B) : P B :=
  fun p =>
    match m p with
    | (inl a, p') => f a p'
    | (inr e, p') => (inr e, p')
    end.

Definition raise_P {A} (e : exception) : P A := fun p => (inr e, p).

Declare Scope bot_scope.
Delimit Scope bot_scope with bot.
Notation "x <- m ;; k" := (bind_P m (fun x => k))
  (at level 61, m at next level, right associativity) : bot_scope.
Notation "m ;;; k" := (bind_P m (fun _ => k))
  (at level 61, right associativity) : bot_scope.
Open Scope bot_scope.

(** [l[x]] on a list of strings *)
Definition getitem (l : list str) (x : nat) : P str :=
  match nth_error l x with
  | Some v => pure_P v
  | None => raise_P (Builtin IndexError)
  end.

(** [msg[key]] *)
Definition msg_getitem (key : str) : P str :=
  fun p =>
    match lookup (msg p) key with
    | Some v => (inl v, p)
    | None => (inr (Builtin KeyError), p)
    end.

(** [msg[key] = v] *)
Definition msg_setitem (key v : str) : P unit :=
  fun p =>
    (inl tt,
     mkProcess (key_word p) (validator p) (console p) (sent p)
               (store (msg p) key v)).

Definition get_key_word : P str := fun p => (inl (key_word p), p).

(** [self.client.send_message(d)]: the dict goes to the messaging service. *)
Definition client_send_message (d : dict) : P unit :=
  fun p =>
    (inl tt,
     mkProcess (key_word p) (validator p) (console p) (sent p ++ [d]) (msg p)).

(** [self.get_time(arg)] called from another method: the value it returns,
    its effect on the validator, its lines on the console. *)
Definition call_get_time (arg : str) : P bool :=
  fun p =>
    let o := get_time (validator p) arg in
    let p' := mkProcess (key_word p) (bot o) (console p ++ out o) (sent p)
                        (msg p) in
    match ret o with
    | Ok b => (inl b, p')
    | Err e => (inr (Builtin e), p')
    end.

(** The characters of ASCII: the bytes that the ascii codec decodes. *)
Definition isascii_c (c : ascii) : bool := (code c <? 128)%N.

Arguments isascii_c : simpl never.

Definition isascii (s : str) : bool := forallb isascii_c s.

(** [u += s] for a [unicode] [u] and a [str] [s]: [s] is decoded with the
    ascii codec, which raises on a byte above 127.  The [unicode] that comes
    out holds ASCII characters only, and is written as their list. *)
Definition unicode_iadd (u : list ascii) (s : str) : P (list ascii) :=
  if isascii s then pure_P (u ++ s) else raise_P UnicodeDecodeError.

(** Lines 168-179.  [output] is the [unicode] of line 171; the words of
    [command] are [str]. *)
Definition parse_command (command : list str) : P (list ascii) :=
  let output := [] in
  c0 <- getitem command 0 ;;
  output <- unicode_iadd output c0 ;;
  c0 <- getitem command 0 ;;
  ok <- call_get_time c0 ;;
  if ok then unicode_iadd output (lit " is a proper time signature")
  else unicode_iadd output (lit " is not proper!!!! nope").

(** Lines 79-87, on the dict [msg]. *)
Definition send_message : P unit :=
  subject <- msg_getitem (lit "subject") ;;
  to <- msg_getitem (lit "display_recipient") ;;
  content <- msg_getitem (lit "content") ;;
  client_send_message
    [(lit "type", lit "stream"); (lit "subject", subject);
     (lit "to", to); (lit "content", content)].

(** Lines 62-76, on the dict [msg]. *)
Definition respond : P unit :=
  c <- msg_getitem (lit "content") ;;
  let content := split " " (lower c) in
  c0 <- getitem content 0 ;;
  kw <- get_key_word ;;
  if eqb_str c0 kw then
    c1 <- getitem content 1 ;;
    (if eqb_str c1 (lit "crash") then raise_P ZeroDivisionError
     else pure_P tt) ;;;
    reply <- parse_command (skipn 1 content) ;;
    msg_setitem (lit "content") reply ;;;
    send_message
  else pure_P tt.

Close Scope bot_scope.

(** The call [self.respond(m)] of line 184. *)
Definition respond_to (p : process) (m : dict) : (unit + exception) * process :=
  respond (mkProcess (key_word p) (validator p) (console p) (sent p) m).

(** Lines 14 and 21-31 of [__init__]: the key word is kept in lower case. *)
Definition construct (key_word : str) : process :=
  mkProcess (lower key_word) new_bot [] [] [].

(* ================================================================== *)
(** ** The vocabulary of the claims *)
(* ================================================================== *)

(** A field of the block format as the pattern reads it: one or two digits
    and a unit letter. *)
Definition is_field (digits : str) (unit_ : ascii) : Prop :=
  isdigit digits = true /\ List.length digits <= 2 /\ one_of "HMDS" unit_ = true.

(** A field of a block token, its digits and its unit letter, and the token
    a list of fields makes, [1D24H60M60S]. *)
Definition field : Type := (str * ascii)%type.

Definition render (f : field) : str := fst f ++ [snd f].

Definition block_token (fields : list field) : str := concat (map render fields).

Definition wf_field (f : field) : Prop := is_field (fst f) (snd f).

(** A string that is one field. *)
Definition is_rendered_field (value : str) : Prop :=
  exists digits u, value = digits ++ [u] /\ is_field digits u.

(** The limits of the block format as the specification lists them. *)
Definition within_block_limit (f : field) : Prop :=
  (snd f = "D"%char /\ dec_val (fst f) <= 1)%Z \/
  (snd f = "H"%char /\ dec_val (fst f) <= 24)%Z \/
  (snd f = "M"%char /\ dec_val (fst f) <= 60)%Z \/
  (snd f = "S"%char /\ dec_val (fst f) <= 60)%Z.

Definition units (fields : list field) : list ascii := map snd fields.

(** The values of a clock token against the limits of their positions. *)
Fixpoint fits (values : list str) (limits : list Z) : Prop :=
  match values, limits with
  | [], _ => True
  | v :: vs, l :: ls => isdigit v = true /\ (dec_val v <= l)%Z /\ fits vs ls
  | _ :: _, [] => False
  end.

(** The meridiem markers proper, upper case. *)
Definition markers : list str := [lit "AM"; lit "PM"; lit "A.M."; lit "P.M."].

(** The validator once a meridiem has been read: line 144. *)
Definition in_12h (me : DelayBot) : DelayBot :=
  mkBot (blockLimits me) (meridiems me) (12%Z :: tl (clockLimits me)).

(** A statement ended without raising. *)
Definition ended (r : flow unit) : Prop := r = Next tt \/ r = Return false.

(** The tables are those of [__init__], but for the value of the hour
    limit. *)
Definition sane (me : DelayBot) : Prop :=
  blockLimits me = blockLimits new_bot /\ meridiems me = meridiems new_bot /\
  length (clockLimits me) = 3.

(** What a statement printed on top of what was there. *)
Definition printed_more (w w' : world) (extra : list printed) : Prop :=
  stdout w' = stdout w ++ extra.

(** Segments that [isdigit] accepts: not empty, digits only. *)
Definition all_digit (pieces : list str) : Prop :=
  Forall (fun p => isdigit p = true) pieces.

(** The meridiem candidate of a token: what is beyond the first two
    characters of its last colon-separated segment. *)
Definition candidate (tok : str) : str := skipn 2 (last (split ":" tok) []).

(** The shape [HH]: exactly two characters, both digits. *)
Definition two_digits (s : str) : Prop := length s = 2 /\ isdigit s = true.

(** A printed line that gives the reason of a [False]: every line but the
    echo of line 145. *)
Definition diagnostic (p : printed) : Prop :=
  match p with
  | EndingAndLast _ _ => False
  | _ => True
  end.

(** The process with [m] for the dict [msg]; the process after a call of
    [get_time] on [tok]; the reply of [parse_command] for a token and the
    value [get_time] returned. *)
Definition with_msg (p : process) (m : dict) : process :=
  mkProcess (key_word p) (validator p) (console p) (sent p) m.

Definition validated (p : process) (tok : str) : process :=
  mkProcess (key_word p) (bot (get_time (validator p) tok))
            (console p ++ out (get_time (validator p) tok)) (sent p) (msg p).

Definition reply_to (tok : str) (b : bool) : str :=
  tok ++ (if b then lit " is a proper time signature"
          else lit " is not proper!!!! nope").

(** The dict that [send_message] hands to the client. *)
Definition stream_message (subject to content : str) : dict :=
  [(lit "type", lit "stream"); (lit "subject", subject);
   (lit "to", to); (lit "content", content)].

(** The list the loop of lines 154-163 goes through for a token: its
    segments, the last one cut to its first two characters. *)
Definition clock_values (tok : str) : list str :=
  removelast (split ":" (upper tok))
  ++ [firstn 2 (last (split ":" (upper tok)) [])].

(** The world in which the values of a clock token are looked at: as it
    was when the ending is empty, switched to the 12-hour limit and with
    the echo of line 145 printed otherwise. *)
Definition after_ending (ending last_ : str) (w : world) : world :=
  if eqb_str ending [] then w
  else mkWorld (in_12h (self w)) (stdout w ++ [EndingAndLast ending last_]).

(* ================================================================== *)
(** ** Characters *)
(* ================================================================== *)

Lemma eqb_c_eq (a b : ascii) : eqb_c a b = true <-> a = b.
Proof. apply Ascii.eqb_eq. Qed.

Lemma eqb_c_refl (a : ascii) : eqb_c a a = true.
Proof. apply Ascii.eqb_refl. Qed.

Lemma eqb_c_sym (a b : ascii) : eqb_c a b = eqb_c b a.
Proof. apply Ascii.eqb_sym. Qed.

Lemma eqb_str_eq (a b : str) : eqb_str a b = true <-> a = b.
Proof.
  revert b; induction a as [|x a IH]; intros [|y b]; simpl; split;
    try discriminate; try reflexivity.
  - intros H. apply andb_true_iff in H as [Hx Ha].
    apply eqb_c_eq in Hx. apply IH in Ha. congruence.
  - intros H. injection H as -> ->.
    rewrite eqb_c_refl. simpl. apply IH. reflexivity.
Qed.

Lemma mem_c_In (c : ascii) (l : list ascii) : mem_c c l = true <-> In c l.
Proof.
  unfold mem_c. rewrite existsb_exists. split.
  - intros (x & Hin & Heq). apply eqb_c_eq in Heq. now subst.
  - intros Hin. exists c. split; [assumption | apply eqb_c_refl].
Qed.

Lemma mem_c_app (c : ascii) (l1 l2 : list ascii) :
  mem_c c (l1 ++ l2) = mem_c c l1 || mem_c c l2.
Proof. apply existsb_app. Qed.

(** Facts about one character are settled on the 256 of them. *)
Ltac each_char c :=
  destruct c as [[] [] [] [] [] [] [] []]; vm_compute;
  try discriminate; try reflexivity; auto.

Lemma upper_c_idem (c : ascii) : upper_c (upper_c c) = upper_c c.
Proof. each_char c. Qed.

Lemma upper_c_colon (c : ascii) : eqb_c (upper_c c) ":" = eqb_c c ":".
Proof. each_char c. Qed.

Lemma digit_upper (c : ascii) : isdigit_c c = true -> upper_c c = c.
Proof. each_char c. Qed.

Lemma digit_not_unit (c : ascii) : isdigit_c c = true -> one_of "HMDS" c = false.
Proof. each_char c. Qed.

Lemma digit_not_colon (c : ascii) : isdigit_c c = true -> eqb_c c ":" = false.
Proof. each_char c. Qed.

Lemma digit_not_space (c : ascii) : isdigit_c c = true -> isspace_c c = false.
Proof. each_char c. Qed.

Lemma digit_not_sign (c : ascii) :
  isdigit_c c = true -> eqb_c c "+" = false /\ eqb_c c "-" = false.
Proof. each_char c. Qed.

Lemma unit_cases (u : ascii) :
  one_of "HMDS" u = true ->
  u = "D"%char \/ u = "H"%char \/ u = "M"%char \/ u = "S"%char.
Proof.
  intros H.
  assert (E : eqb_c u "D" || eqb_c u "H" || eqb_c u "M" || eqb_c u "S" = true)
    by (revert H; each_char u).
  repeat (apply orb_true_iff in E as [E | E]);
    apply eqb_c_eq in E; auto.
Qed.

Lemma unit_not_digit (u : ascii) : one_of "HMDS" u = true -> isdigit_c u = false.
Proof. each_char u. Qed.

Lemma unit_upper (u : ascii) : one_of "HMDS" u = true -> upper_c u = u.
Proof. each_char u. Qed.

(* ================================================================== *)
(** ** Strings: [upper], [split], [int] *)
(* ================================================================== *)

Lemma upper_idem (s : str) : upper (upper s) = upper s.
Proof.
  unfold upper. rewrite map_map. apply map_ext. apply upper_c_idem.
Qed.

Lemma upper_app (a b : str) : upper (a ++ b) = upper a ++ upper b.
Proof. apply map_app. Qed.

Lemma upper_digits (s : str) : forallb isdigit_c s = true -> upper s = s.
Proof.
  induction s as [|c s IH]; simpl; intros H; [reflexivity|].
  apply andb_true_iff in H as [Hc Hs].
  now rewrite digit_upper, IH.
Qed.

Lemma isdigit_all (s : str) : isdigit s = true -> forallb isdigit_c s = true.
Proof. destruct s; [discriminate | auto]. Qed.

Lemma isdigit_nonempty (s : str) : isdigit s = true -> s <> [].
Proof. destruct s; [discriminate | discriminate]. Qed.

Lemma digits_no_colon (s : str) :
  forallb isdigit_c s = true -> mem_c ":" s = false.
Proof.
  induction s as [|c s IH]; simpl; intros H; [reflexivity|].
  apply andb_true_iff in H as [Hc Hs].
  rewrite (eqb_c_sym ":" c).
  now rewrite digit_not_colon, IH.
Qed.

Lemma split_nonempty (sep : ascii) (s : str) : split sep s <> [].
Proof.
  induction s as [|c s IH]; simpl; [discriminate|].
  destruct (eqb_c c sep); [discriminate|].
  destruct (split sep s); [contradiction | discriminate].
Qed.

(** A string with a separator in it splits into two pieces at least. *)
Lemma split_length_ge_2 (sep : ascii) (s : str) :
  mem_c sep s = true -> 2 <= List.length (split sep s).
Proof.
  induction s as [|c s IH]; simpl; [discriminate|].
  rewrite (eqb_c_sym sep c).
  destruct (eqb_c c sep) eqn:E; simpl.
  - intros _. pose proof (split_nonempty sep s).
    destruct (split sep s); [contradiction | simpl; lia].
  - intros H. specialize (IH H).
    destruct (split sep s); simpl in *; lia.
Qed.

Lemma split_upper (s : str) : split ":" (upper s) = map upper (split ":" s).
Proof.
  induction s as [|c s IH]; simpl; [reflexivity|].
  rewrite upper_c_colon. destruct (eqb_c c ":"); simpl.
  - now rewrite IH.
  - rewrite IH. destruct (split ":" s); reflexivity.
Qed.

Lemma split_piece (sep : ascii) (p rest : str) :
  mem_c sep p = false ->
  split sep (p ++ sep :: rest) = p :: split sep rest.
Proof.
  induction p as [|c p IH]; simpl.
  - now rewrite eqb_c_refl.
  - unfold eqb_c at 1. rewrite Ascii.eqb_sym. fold (eqb_c c sep).
    intros H. apply orb_false_iff in H as [Hc Hp].
    now rewrite Hc, (IH Hp).
Qed.

Lemma split_no_sep (sep : ascii) (p : str) :
  mem_c sep p = false -> split sep p = [p].
Proof.
  induction p as [|c p IH]; simpl; [reflexivity|].
  rewrite (eqb_c_sym sep c).
  intros H. apply orb_false_iff in H as [Hc Hp].
  now rewrite Hc, (IH Hp).
Qed.

(** [sep.join(pieces).split(sep) == pieces] when no piece holds [sep]. *)
Lemma split_join (sep : ascii) (pieces : list str) :
  pieces <> [] ->
  Forall (fun p => mem_c sep p = false) pieces ->
  split sep (join sep pieces) = pieces.
Proof.
  induction pieces as [|p ps IH]; [congruence|].
  intros _ H. inversion H as [|? ? Hp Hps]; subst.
  destruct ps as [|q ps].
  - simpl. now apply split_no_sep.
  - change (join sep (p :: q :: ps)) with (p ++ sep :: join sep (q :: ps)).
    rewrite split_piece by assumption.
    rewrite IH; [reflexivity | discriminate | assumption].
Qed.

Lemma upper_join (ps : list str) :
  upper (join ":" ps) = join ":" (map upper ps).
Proof.
  induction ps as [|p ps IH]; [reflexivity|].
  destruct ps as [|q ps]; [reflexivity|].
  change (join ":" (p :: q :: ps)) with (p ++ ":"%char :: join ":" (q :: ps)).
  rewrite upper_app.
  change (upper (":"%char :: join ":" (q :: ps)))
    with (":"%char :: upper (join ":" (q :: ps))).
  rewrite IH. reflexivity.
Qed.

Lemma lstrip_digits (s : str) : forallb isdigit_c s = true -> lstrip s = s.
Proof.
  destruct s as [|c s]; simpl; [reflexivity|].
  intros H. apply andb_true_iff in H as [Hc _].
  now rewrite digit_not_space.
Qed.

Lemma forallb_rev {A} (f : A -> bool) (l : list A) :
  forallb f (rev l) = forallb f l.
Proof.
  induction l as [|a l IH]; simpl; [reflexivity|].
  rewrite forallb_app, IH. simpl. rewrite andb_true_r. apply andb_comm.
Qed.

Lemma strip_digits (s : str) : forallb isdigit_c s = true -> strip s = s.
Proof.
  intros H. unfold strip.
  rewrite (lstrip_digits s H).
  rewrite lstrip_digits by now rewrite forallb_rev.
  apply rev_involutive.
Qed.

(** [int] accepts every string that [isdigit] accepts. *)
Lemma parse_int_digits (s : str) :
  isdigit s = true -> parse_int s = Some (dec_val s).
Proof.
  intros H. unfold parse_int.
  rewrite (strip_digits s (isdigit_all s H)).
  destruct s as [|c s]; [discriminate|].
  assert (Hc : isdigit_c c = true).
  { simpl in H. now apply andb_true_iff in H as [Hc _]. }
  destruct (digit_not_sign c Hc) as [-> ->].
  rewrite H. f_equal. lia.
Qed.

Lemma int_digits (s : str) : isdigit s = true -> int_ s = pure (dec_val s).
Proof. intros H. unfold int_. now rewrite parse_int_digits. Qed.

(* ================================================================== *)
(** ** The block pattern *)
(* ================================================================== *)

Lemma rmatch_regexp_field {A} (digits : str) (u : ascii) (rest : str)
    (pos : nat) (k : nat -> str -> option A) :
  is_field digits u ->
  rmatch regexp pos (digits ++ u :: rest) k
  = k (pos + List.length digits + 1) rest.
Proof.
  intros (Hd & Hlen & Hu).
  pose proof (unit_not_digit u Hu) as Hud.
  destruct digits as [|a [|b [|c ds]]]; try discriminate; simpl in Hlen; try lia.
  - simpl in Hd. rewrite andb_true_r in Hd.
    unfold regexp. cbn [rmatch rep app pred List.length].
    change (in_range "0" "9") with isdigit_c.
    rewrite Hd, Hud, Hu.
    replace (pos + 1 + 1) with (S (S pos)) by lia.
    destruct (k (S (S pos)) rest); reflexivity.
  - simpl in Hd. rewrite andb_true_r in Hd.
    apply andb_true_iff in Hd as [Ha Hb].
    unfold regexp. cbn [rmatch rep app pred List.length].
    change (in_range "0" "9") with isdigit_c.
    rewrite Ha, Hb, Hu, (digit_not_unit b Hb).
    replace (pos + 2 + 1) with (S (S (S pos))) by lia.
    destruct (k (S (S (S pos))) rest); reflexivity.
Qed.

(** Conversely, wherever the pattern matches, it has read a field. *)
Lemma rmatch_regexp_inv {A} (s : str) (pos : nat)
    (k : nat -> str -> option A) (x : A) :
  rmatch regexp pos s k = Some x ->
  exists digits u rest,
    s = digits ++ u :: rest /\ is_field digits u /\
    k (pos + List.length digits + 1) rest = Some x.
Proof.
  unfold regexp. cbn [rmatch rep pred].
  change (in_range "0" "9") with isdigit_c.
  destruct s as [|a s]; [discriminate|].
  destruct (isdigit_c a) eqn:Ha; [|discriminate].
  destruct s as [|b s]; [discriminate|].
  destruct (isdigit_c b) eqn:Hb.
  - destruct s as [|c s].
    + rewrite (digit_not_unit b Hb). discriminate.
    + destruct (one_of "HMDS" c) eqn:Hc.
      * destruct (k (S (S (S pos))) s) eqn:Hk.
        -- intros E. injection E as <-.
           exists [a; b], c, s. repeat split; simpl; auto.
           ++ now rewrite Ha, Hb.
           ++ now replace (pos + 2 + 1) with (S (S (S pos))) by lia.
        -- rewrite (digit_not_unit b Hb). discriminate.
      * rewrite (digit_not_unit b Hb). discriminate.
  - destruct (one_of "HMDS" b) eqn:Hu; [|discriminate].
    destruct (k (S (S pos)) s) eqn:Hk; [|discriminate].
    intros E. injection E as <-.
    exists [a], b, s. repeat split; simpl; auto.
    + now rewrite Ha.
    + now replace (pos + 1 + 1) with (S (S pos)) by lia.
Qed.

Lemma block_token_cons (digits : str) (u : ascii) (fs : list field) :
  block_token ((digits, u) :: fs) = digits ++ u :: block_token fs.
Proof.
  unfold block_token, render. simpl. now rewrite <- app_assoc.
Qed.

Lemma rep_regexp_fields {A} (fields : list field) (k : nat -> str -> option A)
    (x : A) :
  Forall wf_field fields ->
  forall lo hi pos,
    lo <= List.length fields <= hi ->
    k (pos + List.length (block_token fields)) [] = Some x ->
    rep (rmatch regexp) k lo hi pos (block_token fields) = Some x.
Proof.
  induction 1 as [|[ds u] fs Hf Hfs IH]; intros lo hi pos [Hlo Hhi] Hk.
  - simpl in *. assert (lo = 0) by lia. subst lo.
    rewrite Nat.add_0_r in Hk.
    destruct hi; cbn [rep block_token map concat]; assumption.
  - destruct hi as [|hi]; [simpl in Hhi; lia|].
    cbn [rep]. rewrite block_token_cons.
    rewrite rmatch_regexp_field by exact Hf.
    rewrite IH; [reflexivity | simpl in *; lia |].
    rewrite <- Hk. f_equal.
    rewrite block_token_cons, length_app. simpl. lia.
Qed.

(** A token of one to four fields matches the anchored pattern. *)
Lemma block_token_matches (fields : list field) :
  Forall wf_field fields ->
  1 <= List.length fields <= 4 ->
  re_match blockRegexpMatch (block_token fields) = true.
Proof.
  intros Hwf Hlen. unfold re_match, blockRegexpMatch.
  cbn [rmatch].
  rewrite (@rep_regexp_fields _ fields _ tt); auto.
Qed.

Lemma firstn_exact {A} (xs rest : list A) :
  firstn (length xs) (xs ++ rest) = xs.
Proof.
  rewrite firstn_app, firstn_all, Nat.sub_diag. simpl. apply app_nil_r.
Qed.

Lemma skipn_exact {A} (xs rest : list A) :
  skipn (length xs) (xs ++ rest) = rest.
Proof.
  rewrite skipn_app, skipn_all, Nat.sub_diag. reflexivity.
Qed.

Lemma skipn_two (final rest : str) :
  length final = 2 -> skipn 2 (final ++ rest) = rest.
Proof. intros <-. apply skipn_exact. Qed.

Lemma firstn_two (final rest : str) :
  length final = 2 -> firstn 2 (final ++ rest) = final.
Proof. intros <-. apply firstn_exact. Qed.

Lemma findall_skip (r : regex) (xs rest : str) (pos : nat) :
  findall_from r pos (List.length xs) (xs ++ rest)
  = findall_from r (pos + List.length xs) 0 rest.
Proof.
  revert pos; induction xs as [|x xs IH]; intros pos.
  - simpl. now rewrite Nat.add_0_r.
  - simpl. rewrite IH. f_equal. lia.
Qed.

Lemma findall_field (digits : str) (u : ascii) (rest : str) (pos : nat) :
  is_field digits u ->
  findall_from regexp pos 0 (digits ++ u :: rest)
  = (digits ++ [u]) :: findall_from regexp (pos + List.length digits + 1) 0 rest.
Proof.
  intros Hf.
  assert (Hne : digits <> []) by (apply isdigit_nonempty, Hf).
  destruct digits as [|a ds]; [congruence|].
  cbn [app findall_from].
  change (a :: ds ++ u :: rest) with ((a :: ds) ++ u :: rest).
  rewrite rmatch_regexp_field by exact Hf.
  replace (pos + List.length (a :: ds) + 1 - pos) with (S (List.length (ds ++ [u])))
    by (rewrite length_app; simpl; lia).
  f_equal.
  - cbn [firstn app].
    replace (ds ++ u :: rest) with ((ds ++ [u]) ++ rest)
      by now rewrite <- app_assoc.
    now rewrite firstn_exact.
  - replace (S (List.length (ds ++ [u])) - 1) with (List.length (ds ++ [u])) by lia.
    replace (ds ++ u :: rest) with ((ds ++ [u]) ++ rest)
      by now rewrite <- app_assoc.
    rewrite findall_skip. f_equal.
    rewrite length_app. simpl. lia.
Qed.

(** [findall] gives back the fields of a block token, in order. *)
Lemma findall_block_token (fields : list field) (pos : nat) :
  Forall wf_field fields ->
  findall_from regexp pos 0 (block_token fields) = map render fields.
Proof.
  intros H; revert pos; induction H as [|[ds u] fs Hf Hfs IH]; intros pos.
  - reflexivity.
  - rewrite block_token_cons.
    rewrite findall_field by exact Hf.
    cbn [map]. f_equal. apply IH.
Qed.

(* ================================================================== *)
(** ** Running statements *)
(* ================================================================== *)

Lemma bind_pure {A B} (a : A) (f : A -> M B) (w : world) :
  bind (pure a) f w = f a w.
Proof. reflexivity. Qed.

Lemma bind_get_self {B} (f : DelayBot -> M B) (w : world) :
  bind get_self f w = f (self w) w.
Proof. reflexivity. Qed.

Lemma bind_print {B} (p : printed) (f : unit -> M B) (w : world) :
  bind (print p) f w = f tt (mkWorld (self w) (stdout w ++ [p])).
Proof. reflexivity. Qed.

Lemma bind_return {A B} (b : bool) (f : A -> M B) (w : world) :
  bind (return_ b) f w = (Return b, w).
Proof. reflexivity. Qed.

Lemma bind_raise {A B} (e : exn) (f : A -> M B) (w : world) :
  bind (raise e) f w = (Raise e, w).
Proof. reflexivity. Qed.

Lemma bind_assoc {A B C} (m : M A) (f : A -> M B) (g : B -> M C) (w : world) :
  bind (bind m f) g w = bind m (fun a => bind (f a) g) w.
Proof. unfold bind. destruct (m w) as [[a | b | e] w']; reflexivity. Qed.

Ltac run1 :=
  first [ rewrite bind_pure | rewrite bind_get_self | rewrite bind_print
        | rewrite bind_return | rewrite bind_raise ];
  cbn beta.

Ltac run := repeat run1.

(** Every string [findall] returns is a field, whatever the subject. *)
Lemma findall_fields (s : str) :
  forall pos skip, Forall is_rendered_field (findall_from regexp pos skip s).
Proof.
  induction s as [|c s IH]; intros pos [|skip]; cbn [findall_from]; auto.
  destruct (rmatch regexp pos (c :: s) (fun pos' _ => Some pos')) as [pos'|] eqn:E;
    [|apply IH].
  constructor; [|apply IH].
  apply rmatch_regexp_inv in E as (ds & u & rest & Hs & Hf & Hk).
  injection Hk as <-. rewrite Hs.
  exists ds, u. split; [|assumption].
  replace (pos + length ds + 1 - pos) with (length (ds ++ [u]))
    by (rewrite length_app; simpl; lia).
  replace (ds ++ u :: rest) with ((ds ++ [u]) ++ rest)
    by now rewrite <- app_assoc.
  apply firstn_exact.
Qed.

(* ================================================================== *)
(** ** The block branch *)
(* ================================================================== *)

Lemma getitem_last_snoc {A} (l : list A) (a : A) :
  getitem_last (l ++ [a]) = pure a.
Proof. unfold getitem_last. now rewrite rev_unit. Qed.

Lemma dict_getitem_unit (u : ascii) :
  one_of "HMDS" u = true ->
  exists limit,
    dict_getitem (blockLimits new_bot) u = pure limit /\
    forall digits, within_block_limit (digits, u) <-> (dec_val digits <= limit)%Z.
Proof.
  intros Hu.
  destruct (unit_cases u Hu) as [-> | [-> | [-> | ->]]];
    [exists 1%Z | exists 24%Z | exists 60%Z | exists 60%Z];
    (split; [reflexivity|]); intros ds; unfold within_block_limit; simpl;
    intuition (try discriminate; auto).
Qed.

(** One turn of the loop on a field whose unit is new. *)
Lemma block_loop_fresh (digits : str) (u : ascii) (values : list str)
    (tally : list ascii) (w : world) :
  is_field digits u ->
  ~ In u tally ->
  blockLimits (self w) = blockLimits new_bot ->
  (within_block_limit (digits, u) ->
   block_loop ((digits ++ [u]) :: values) tally w
   = block_loop values (tally ++ [u]) w) /\
  (~ within_block_limit (digits, u) ->
   block_loop ((digits ++ [u]) :: values) tally w
   = (Return false, mkWorld (self w) (stdout w ++ [ValueIsTooHigh]))).
Proof.
  intros Hf Hnew Hlim.
  assert (Hmem : mem_c u tally = false).
  { destruct (mem_c u tally) eqn:E; [|reflexivity].
    apply mem_c_In in E. contradiction. }
  destruct Hf as (Hd & Hlen & Hu).
  destruct (dict_getitem_unit u Hu) as (limit & Hget & Hwithin).
  assert (Hrun : block_loop ((digits ++ [u]) :: values) tally w
                 = if (dec_val digits >? limit)%Z
                   then (Return false,
                         mkWorld (self w) (stdout w ++ [ValueIsTooHigh]))
                   else block_loop values (tally ++ [u]) w).
  { cbn [block_loop].
    rewrite getitem_last_snoc, removelast_last, (int_digits digits Hd).
    run. rewrite Hmem. run. rewrite Hlim, Hget. run.
    destruct (dec_val digits >? limit)%Z; [run|]; reflexivity. }
  rewrite Hrun. split; intros H.
  - apply Hwithin in H.
    assert (E : (dec_val digits >? limit)%Z = false)
      by (rewrite Z.gtb_ltb; apply Z.ltb_ge; lia).
    rewrite E. reflexivity.
  - assert (limit < dec_val digits)%Z.
    { destruct (Z.lt_ge_cases limit (dec_val digits)); [assumption|].
      exfalso. apply H, Hwithin. lia. }
    assert (E : (dec_val digits >? limit)%Z = true)
      by (rewrite Z.gtb_ltb; apply Z.ltb_lt; assumption).
    rewrite E. reflexivity.
Qed.

(** One turn of the loop on a field whose unit was seen: the magnitude is
    not looked at. *)
Lemma block_loop_seen (digits : str) (u : ascii) (values : list str)
    (tally : list ascii) (w : world) :
  In u tally ->
  block_loop ((digits ++ [u]) :: values) tally w
  = (Return false, mkWorld (self w) (stdout w ++ [DefinedTwice])).
Proof.
  intros Hin. apply mem_c_In in Hin.
  cbn [block_loop]. rewrite getitem_last_snoc.
  run. rewrite Hin. run. reflexivity.
Qed.

Lemma within_block_limit_dec (f : field) :
  {within_block_limit f} + {~ within_block_limit f}.
Proof.
  unfold within_block_limit.
  destruct (ascii_dec (snd f) "D"), (ascii_dec (snd f) "H"),
    (ascii_dec (snd f) "M"), (ascii_dec (snd f) "S"),
    (Z_le_dec (dec_val (fst f)) 1), (Z_le_dec (dec_val (fst f)) 24),
    (Z_le_dec (dec_val (fst f)) 60);
    try (left; tauto); right; tauto.
Qed.

(** The scan of a run of fields with pairwise distinct, new units: it goes
    through when all are within their limits and stops at the first that is
    not. *)
Lemma block_loop_scan (pre : list field) (rest : list str) :
  Forall wf_field pre ->
  forall (tally : list ascii) (w : world),
    NoDup (tally ++ units pre) ->
    blockLimits (self w) = blockLimits new_bot ->
    (Forall within_block_limit pre ->
     block_loop (map render pre ++ rest) tally w
     = block_loop rest (tally ++ units pre) w) /\
    (~ Forall within_block_limit pre ->
     block_loop (map render pre ++ rest) tally w
     = (Return false, mkWorld (self w) (stdout w ++ [ValueIsTooHigh]))).
Proof.
  induction 1 as [|[ds u] fs Hf Hfs IH]; intros tally w Hnd Hlim.
  - simpl. rewrite app_nil_r. split; [reflexivity|].
    intros H. exfalso. apply H. constructor.
  - assert (Hnew : ~ In u tally).
    { intros Hin. apply NoDup_remove_2 in Hnd. apply Hnd.
      apply in_or_app. left. exact Hin. }
    assert (Hnd' : NoDup ((tally ++ [u]) ++ units fs))
      by (rewrite <- app_assoc; exact Hnd).
    destruct (block_loop_fresh ds u (map render fs ++ rest) tally w Hf Hnew Hlim)
      as [Hin Hout].
    destruct (IH (tally ++ [u]) w Hnd' Hlim) as [IHin IHout].
    change (map render ((ds, u) :: fs) ++ rest)
      with ((ds ++ [u]) :: (map render fs ++ rest)).
    change (units ((ds, u) :: fs)) with (u :: units fs).
    replace (tally ++ u :: units fs) with ((tally ++ [u]) ++ units fs)
      by now rewrite <- app_assoc.
    destruct (within_block_limit_dec (ds, u)) as [Hw | Hw].
    + rewrite (Hin Hw). split.
      * intros H. inversion H; subst. auto.
      * intros H. apply IHout. intros Hall. apply H. constructor; assumption.
    + rewrite (Hout Hw). split; [|reflexivity].
      intros H. inversion H; subst. contradiction.
Qed.

Lemma upper_block_token (fields : list field) :
  Forall wf_field fields -> upper (block_token fields) = block_token fields.
Proof.
  induction 1 as [|[ds u] fs (Hd & _ & Hu) _ IH]; [reflexivity|].
  rewrite block_token_cons, upper_app.
  change (upper (u :: block_token fs)) with (upper_c u :: upper (block_token fs)).
  cbn [fst snd] in *.
  now rewrite (upper_digits ds (isdigit_all ds Hd)), (unit_upper u Hu), IH.
Qed.

Lemma classify_block (arg : str) :
  re_match blockRegexpMatch arg = true -> classify arg = pure block.
Proof. unfold classify. now intros ->. Qed.

Lemma classify_clock (arg : str) :
  re_match blockRegexpMatch arg = false -> mem_c ":" arg = true ->
  classify arg = pure clock.
Proof. unfold classify. now intros -> ->. Qed.

(** The call on a block token comes down to the loop over its fields. *)
Lemma get_time_block_token (me : DelayBot) (fields : list field) :
  Forall wf_field fields ->
  1 <= length fields <= 4 ->
  get_time me (block_token fields)
  = outcome_of
      (bind (block_loop (map render fields) []) (fun _ => pure true)
            (mkWorld me [])).
Proof.
  intros Hwf Hlen. unfold get_time, get_time_body.
  rewrite (upper_block_token fields Hwf).
  rewrite (classify_block _ (block_token_matches fields Hwf Hlen)).
  run. unfold blockRegexpFind, findall.
  now rewrite findall_block_token.
Qed.

(** Some field repeats a unit: the first one that does, and what is before
    it. *)
Lemma first_repeated_unit (fields : list field) :
  ~ NoDup (units fields) ->
  exists pre f post,
    fields = pre ++ f :: post /\ NoDup (units pre) /\ In (snd f) (units pre).
Proof.
  induction fields as [|x l IH] using rev_ind; intros Hdup.
  - exfalso. apply Hdup. constructor.
  - destruct (NoDup_dec ascii_dec (units l)) as [Hnd | Hnd].
    + exists l, x, []. repeat split; auto.
      destruct (in_dec ascii_dec (snd x) (units l)) as [Hin | Hout]; [assumption|].
      exfalso. apply Hdup. unfold units. rewrite map_app. simpl.
      apply NoDup_app; [assumption | repeat constructor; intros [] | ].
      intros a Ha [<- | []]. contradiction.
    + destruct (IH Hnd) as (pre & f & post & -> & Hpre & Hin).
      exists pre, f, (post ++ [x]). rewrite <- app_assoc. auto.
Qed.

(* ================================================================== *)
(** ** The clock branch *)
(* ================================================================== *)

Lemma digits_prefix_next (ds ds' : str) (c c' : ascii) (r r' : str) :
  forallb isdigit_c ds = true -> forallb isdigit_c ds' = true ->
  isdigit_c c = false -> isdigit_c c' = false ->
  ds ++ c :: r = ds' ++ c' :: r' -> c = c'.
Proof.
  revert ds'; induction ds as [|d ds IH]; intros [|d' ds'] Hds Hds' Hc Hc' E;
    simpl in *.
  - congruence.
  - apply andb_true_iff in Hds' as [Hd' _]. congruence.
  - apply andb_true_iff in Hds as [Hd _]. congruence.
  - apply andb_true_iff in Hds as [_ Hds].
    apply andb_true_iff in Hds' as [_ Hds'].
    injection E as _ E. eapply IH; eauto.
Qed.

(** A run of digits followed by a colon does not start a block token. *)
Lemma block_no_match_colon (ds rest : str) :
  forallb isdigit_c ds = true ->
  re_match blockRegexpMatch (ds ++ ":"%char :: rest) = false.
Proof.
  intros Hds. unfold re_match, blockRegexpMatch. cbn [rmatch rep pred].
  match goal with
  | |- context [rmatch regexp 0 ?s ?k] => destruct (rmatch regexp 0 s k) eqn:E
  end; [exfalso | reflexivity].
  apply rmatch_regexp_inv in E as (ds' & c & rest' & Hs & (Hd' & _ & Hc) & _).
  assert (E : ":"%char = c).
  { eapply digits_prefix_next; [exact Hds | exact (isdigit_all ds' Hd') | | | exact Hs].
    - reflexivity.
    - now apply unit_not_digit. }
  subst c. discriminate Hc.
Qed.

Lemma join_cons2 (sep : ascii) (p q : str) (ps : list str) :
  join sep (p :: q :: ps) = p ++ sep :: join sep (q :: ps).
Proof. reflexivity. Qed.

Lemma mem_c_join (sep : ascii) (ps : list str) :
  2 <= length ps -> mem_c sep (join sep ps) = true.
Proof.
  destruct ps as [|p [|q ps]]; simpl length; try lia. intros _.
  rewrite join_cons2, mem_c_app. simpl. rewrite eqb_c_refl.
  simpl. apply orb_true_r.
Qed.

(** The call on a token whose upper-case form is [first:...:last_], where
    [first] is a run of digits, comes down to [clock_fields] on the
    pieces. *)
Lemma get_time_clock_token (me : DelayBot) (arg first : str)
    (more : list str) :
  upper arg = join ":" (first :: more) ->
  more <> [] ->
  forallb isdigit_c first = true ->
  Forall (fun p => mem_c ":" p = false) more ->
  get_time me arg
  = outcome_of
      (bind (clock_fields (first :: more)) (fun _ => pure true) (mkWorld me [])).
Proof.
  intros Hup Hmore Hfirst Hcolon.
  unfold get_time, get_time_body, clock_branch. rewrite Hup.
  destruct more as [|q more]; [congruence|].
  rewrite classify_clock.
  - run. rewrite split_join; [reflexivity | discriminate |].
    constructor; [now apply digits_no_colon | assumption].
  - rewrite join_cons2. now apply block_no_match_colon.
  - apply mem_c_join. simpl. lia.
Qed.

Lemma skipn_nth_error {A} (x : nat) (l : list A) (a : A) (rest : list A) :
  skipn x l = a :: rest -> nth_error l x = Some a /\ skipn (S x) l = rest.
Proof.
  revert l; induction x as [|x IH]; intros [|b l] E; simpl in *; try discriminate.
  - injection E as -> ->. auto.
  - apply IH in E. exact E.
Qed.

Lemma clock_loop_fits (values : list str) :
  forall (x : nat) (w : world),
    fits values (skipn x (clockLimits (self w))) ->
    clock_loop x values w = (Next tt, w).
Proof.
  induction values as [|v vs IH]; intros x w Hfits; [reflexivity|].
  cbn [fits] in Hfits.
  destruct (skipn x (clockLimits (self w))) as [|l ls] eqn:E; [contradiction|].
  destruct Hfits as (Hv & Hle & Hvs).
  apply skipn_nth_error in E as [Hnth Hskip].
  cbn [clock_loop]. rewrite Hv. cbn [negb].
  rewrite (int_digits v Hv). run.
  unfold list_getitem. rewrite Hnth. run.
  assert (E : (dec_val v >? l)%Z = false)
    by (rewrite Z.gtb_ltb; apply Z.ltb_ge; lia).
  rewrite E. apply IH. now rewrite Hskip.
Qed.

(** The first value over its limit stops the loop. *)
Lemma clock_loop_too_high (v : str) (values : list str) (x : nat) (w : world)
    (limit : Z) :
  isdigit v = true ->
  nth_error (clockLimits (self w)) x = Some limit ->
  (limit < dec_val v)%Z ->
  clock_loop x (v :: values) w
  = (Return false, mkWorld (self w) (stdout w ++ [ValueTooHigh v limit x])).
Proof.
  intros Hv Hnth Hlt.
  cbn [clock_loop]. rewrite Hv. cbn [negb].
  rewrite (int_digits v Hv). run.
  unfold list_getitem. rewrite Hnth. run.
  assert (E : (dec_val v >? limit)%Z = true)
    by (rewrite Z.gtb_ltb; apply Z.ltb_lt; lia).
  rewrite E. run. reflexivity.
Qed.

Lemma marker_facts (m : str) :
  In m markers ->
  mem_str m (meridiems new_bot) = true /\ eqb_str m [] = false /\
  mem_c ":" m = false.
Proof.
  intros [<- | [<- | [<- | [<- | []]]]]; repeat split; reflexivity.
Qed.

(** Lines 136-140: an ending outside the set stops the call at once. *)
Lemma clock_fields_bad_meridiem (front : list str) (last_ : str) (w : world) :
  mem_str (skipn 2 last_) (meridiems (self w)) = false ->
  clock_fields (front ++ [last_]) w
  = (Return false,
     mkWorld (self w) (stdout w ++ [NotAMeridiem (skipn 2 last_)])).
Proof.
  intros H. unfold clock_fields.
  rewrite getitem_last_snoc. run. rewrite H. cbn [negb]. run.
  reflexivity.
Qed.

Lemma count_ok (front : list str) (final : str) :
  length front = 1 \/ length front = 2 ->
  negb (Nat.eqb (length (front ++ [final])) 2
        || Nat.eqb (length (front ++ [final])) 3) = false.
Proof.
  intros H. rewrite length_app. simpl.
  destruct H as [-> | ->]; reflexivity.
Qed.

Ltac count_is_ok H :=
  match goal with
  | |- context [negb ?b] =>
      let E := fresh "E" in
      assert (E : negb b = false) by (apply count_ok; exact H);
      rewrite E; clear E
  end.

(** Without an ending the limits are left as they are. *)
Lemma clock_fields_no_ending (front : list str) (final : str) (w : world) :
  meridiems (self w) = meridiems new_bot ->
  length final <= 2 ->
  length front = 1 \/ length front = 2 ->
  clock_fields (front ++ [final]) w = clock_loop 0 (front ++ [final]) w.
Proof.
  intros Hmer Hlen Hcount. unfold clock_fields.
  rewrite getitem_last_snoc. run.
  rewrite (skipn_all2 final Hlen), Hmer.
  change (mem_str [] (meridiems new_bot)) with true.
  change (eqb_str [] []) with true. cbn [negb]. run.
  rewrite removelast_last, (firstn_all2 final Hlen).
  count_is_ok Hcount. reflexivity.
Qed.

(** With a marker after two characters, the hour limit is set to 12 before
    the values are looked at. *)
Lemma clock_fields_marker (front : list str) (final marker : str) (w : world) :
  meridiems (self w) = meridiems new_bot ->
  clockLimits (self w) <> [] ->
  length final = 2 ->
  In marker markers ->
  length front = 1 \/ length front = 2 ->
  clock_fields (front ++ [final ++ marker]) w
  = clock_loop 0 (front ++ [final])
      (mkWorld (in_12h (self w))
               (stdout w ++ [EndingAndLast marker (final ++ marker)])).
Proof.
  intros Hmer Hlim Hlen Hmarker Hcount. unfold clock_fields.
  destruct (marker_facts marker Hmarker) as (Hin & Hne & _).
  rewrite getitem_last_snoc. run.
  rewrite (skipn_two final marker Hlen), Hmer, Hin, Hne. cbn [negb].
  rewrite bind_assoc.
  assert (Hset : forall B (f : unit -> M B),
            bind (set_clockLimits_0 12) f w
            = f tt (mkWorld (in_12h (self w)) (stdout w))).
  { intros B f. unfold bind, set_clockLimits_0, in_12h.
    destruct (clockLimits (self w)); [congruence | reflexivity]. }
  rewrite Hset. run.
  rewrite removelast_last, (firstn_two final marker Hlen).
  count_is_ok Hcount. reflexivity.
Qed.

(* ================================================================== *)
(** ** No statement of [get_time] raises; what a call does to [self] *)
(* ================================================================== *)

Lemma printed_nothing (w : world) :
  exists extra, printed_more w w extra /\ ~ In MissingValues extra.
Proof. exists []. split; [symmetry; apply app_nil_r | intros []]. Qed.

Ltac printed_one :=
  match goal with
  | |- exists extra, printed_more ?w (mkWorld _ (stdout ?w ++ [?p])) extra /\ _ =>
      exists [p]; split; [reflexivity | intros [H | []]; discriminate H]
  end.

Lemma block_loop_ends (values : list str) :
  Forall is_rendered_field values ->
  forall (tally : list ascii) (w : world),
    blockLimits (self w) = blockLimits new_bot ->
    exists r w',
      block_loop values tally w = (r, w') /\ self w' = self w /\ ended r /\
      exists extra, printed_more w w' extra /\ ~ In MissingValues extra.
Proof.
  induction 1 as [|v vs (ds & u & -> & Hf) Hvs IH]; intros tally w Hlim.
  - exists (Next tt), w. repeat split; [now left | apply printed_nothing].
  - destruct (in_dec ascii_dec u tally) as [Hin | Hnew].
    + rewrite (block_loop_seen ds u vs tally w Hin).
      eexists _, _. repeat split; [now right | printed_one].
    + destruct (block_loop_fresh ds u vs tally w Hf Hnew Hlim) as [Hok Hhigh].
      destruct (within_block_limit_dec (ds, u)) as [Hw | Hw].
      * rewrite (Hok Hw). apply IH, Hlim.
      * rewrite (Hhigh Hw).
        eexists _, _. repeat split; [now right | printed_one].
Qed.

Lemma clock_loop_ends (values : list str) :
  forall (x : nat) (w : world),
    x + length values <= length (clockLimits (self w)) ->
    exists r w',
      clock_loop x values w = (r, w') /\ self w' = self w /\ ended r /\
      exists extra, printed_more w w' extra /\ ~ In MissingValues extra.
Proof.
  induction values as [|v vs IH]; intros x w Hlen.
  - exists (Next tt), w. repeat split; [now left | apply printed_nothing].
  - cbn [clock_loop]. destruct (isdigit v) eqn:Hv; cbn [negb].
    + rewrite (int_digits v Hv). run. unfold list_getitem.
      destruct (nth_error (clockLimits (self w)) x) as [limit|] eqn:Hnth.
      * run. destruct (dec_val v >? limit)%Z.
        -- run. eexists _, _. repeat split; [now right | printed_one].
        -- apply IH. simpl in Hlen. lia.
      * apply nth_error_None in Hnth. simpl in Hlen. lia.
    + run. eexists _, _. repeat split; [now right | printed_one].
Qed.

Lemma in_12h_sane (me : DelayBot) : sane me -> sane (in_12h me).
Proof.
  intros (Hb & Hm & Hc). repeat split; auto.
  unfold in_12h. cbn [clockLimits].
  destruct (clockLimits me); simpl in *; lia.
Qed.

Lemma count_rejected (front : list str) (last_ piece : str) :
  negb (Nat.eqb (length (front ++ [piece])) 2
        || Nat.eqb (length (front ++ [piece])) 3) = true ->
  length (front ++ [last_]) <> 2 /\ length (front ++ [last_]) <> 3.
Proof.
  rewrite !length_app. simpl. intros H.
  apply negb_true_iff, orb_false_iff in H as [H2 H3].
  apply Nat.eqb_neq in H2, H3. lia.
Qed.

Lemma count_accepted (front : list str) (piece : str) :
  negb (Nat.eqb (length (front ++ [piece])) 2
        || Nat.eqb (length (front ++ [piece])) 3) = false ->
  length (front ++ [piece]) <= 3.
Proof.
  intros H. apply negb_false_iff, orb_true_iff in H.
  destruct H as [H | H]; apply Nat.eqb_eq in H; lia.
Qed.

(** Lines 136-163 never raise; "Missing Values!" is printed only for a
    list of neither two nor three segments. *)
Lemma clock_fields_ends (arg : list str) (w : world) :
  arg <> [] ->
  length (clockLimits (self w)) = 3 ->
  exists r w',
    clock_fields arg w = (r, w') /\
    (self w' = self w \/ self w' = in_12h (self w)) /\ ended r /\
    exists extra,
      printed_more w w' extra /\
      (In MissingValues extra -> length arg <> 2 /\ length arg <> 3).
Proof.
  intros Hne Hlen.
  destruct (exists_last Hne) as (front & last_ & ->).
  unfold clock_fields. rewrite getitem_last_snoc. run.
  destruct (mem_str (skipn 2 last_) (meridiems (self w))); cbn [negb].
  2: { run. eexists _, _. repeat split; [now left | now right |].
       exists [NotAMeridiem (skipn 2 last_)]. split; [reflexivity|].
       intros [H | []]. discriminate H. }
  rewrite removelast_last.
  destruct (eqb_str (skipn 2 last_) []); cbn [negb].
  - run.
    destruct (negb (Nat.eqb (length (front ++ [firstn 2 last_])) 2
                    || Nat.eqb (length (front ++ [firstn 2 last_])) 3)) eqn:Hcount.
    + run. eexists _, _. repeat split; [now left | now right |].
      exists [MissingValues]. split; [reflexivity|]. intros _.
      eapply count_rejected, Hcount.
    + destruct (clock_loop_ends (front ++ [firstn 2 last_]) 0 w)
        as (r & w' & E & Hself & Hr & extra & Hextra & Hno).
      * apply count_accepted in Hcount. cbn [Nat.add]. rewrite Hlen.
        exact Hcount.
      * exists r, w'. repeat split; auto.
        exists extra. split; [exact Hextra | intros H; contradiction].
  - rewrite bind_assoc.
    assert (Hset : forall B (f : unit -> M B),
              bind (set_clockLimits_0 12) f w
              = f tt (mkWorld (in_12h (self w)) (stdout w))).
    { intros B f. unfold bind, set_clockLimits_0, in_12h.
      destruct (clockLimits (self w)); [discriminate | reflexivity]. }
    rewrite Hset. run.
    destruct (negb (Nat.eqb (length (front ++ [firstn 2 last_])) 2
                    || Nat.eqb (length (front ++ [firstn 2 last_])) 3)) eqn:Hcount.
    + run. eexists _, _. repeat split; [now right | now right |].
      exists [EndingAndLast (skipn 2 last_) last_; MissingValues].
      split; [unfold printed_more; cbn [stdout]; now rewrite <- app_assoc|].
      intros _. eapply count_rejected, Hcount.
    + match goal with
      | |- context [clock_loop 0 ?vs ?w0] =>
          destruct (clock_loop_ends vs 0 w0)
            as (r & w' & E & Hself & Hr & extra & Hextra & Hno)
      end.
      * apply count_accepted in Hcount.
        cbn [Nat.add self in_12h clockLimits].
        destruct (clockLimits (self w)) as [|l0 ls]; [discriminate Hlen|].
        cbn [tl length] in *. rewrite Hlen. exact Hcount.
      * exists r, w'. repeat split; auto.
        exists (EndingAndLast (skipn 2 last_) last_ :: extra).
        split.
        -- unfold printed_more in *. rewrite Hextra. cbn [stdout].
           now rewrite <- app_assoc.
        -- intros [H | H]; [discriminate H | contradiction].
Qed.

(** A call on a sane validator returns [True] or [False], and leaves the
    validator as it was or with the hour limit at 12; it prints "Missing
    Values!" only for a token of more than three segments. *)
Lemma get_time_returns (me : DelayBot) (arg : str) :
  sane me ->
  exists b,
    ret (get_time me arg) = Ok b /\
    (bot (get_time me arg) = me \/ bot (get_time me arg) = in_12h me) /\
    (In MissingValues (out (get_time me arg)) ->
     3 < length (split ":" (upper arg))).
Proof.
  intros (Hb & Hm & Hc).
  unfold get_time, get_time_body, classify.
  destruct (re_match blockRegexpMatch (upper arg)).
  - run.
    destruct (block_loop_ends (findall blockRegexpFind (upper arg))
                (findall_fields _ _ _) [] (mkWorld me []) Hb)
      as (r & w' & E & Hself & [-> | ->] & extra & Hextra & Hno);
      unfold bind; rewrite E; cbn; unfold printed_more in Hextra;
      cbn in Hextra; rewrite Hextra;
      (eexists; repeat split; [now left | intros H; contradiction]).
  - destruct (mem_c ":" (upper arg)) eqn:Hcolon.
    + run. unfold clock_branch.
      pose proof (split_length_ge_2 ":" (upper arg) Hcolon) as Hge.
      destruct (clock_fields_ends (split ":" (upper arg)) (mkWorld me [])
                  (split_nonempty _ _) Hc)
        as (r & w' & E & Hself & [-> | ->] & extra & Hextra & Hmiss);
        unfold bind; rewrite E; cbn; unfold printed_more in Hextra;
        cbn in Hextra; rewrite Hextra;
        (eexists; repeat split; [exact Hself | intros H; apply Hmiss in H; lia]).
    + run. cbn. eexists; repeat split; [now left|].
      intros [H | []]. discriminate H.
Qed.

Lemma after_sane (calls : list str) :
  forall me, sane me -> sane (after me calls).
Proof.
  induction calls as [|arg calls IH]; intros me Hme; [assumption|].
  cbn [after fold_left]. apply IH.
  destruct (get_time_returns me arg Hme) as (b & _ & [-> | ->] & _);
    [assumption | now apply in_12h_sane].
Qed.

Lemma new_bot_sane : sane new_bot.
Proof. repeat split. Qed.

(** The validators that exist: the new one, and the one a meridiem has
    switched to the 12-hour limit. *)
Lemma after_new_bot (calls : list str) :
  after new_bot calls = new_bot \/ after new_bot calls = in_12h new_bot.
Proof.
  assert (H : forall me, me = new_bot \/ me = in_12h new_bot ->
                         after me calls = new_bot \/ after me calls = in_12h new_bot).
  { induction calls as [|arg calls IH]; intros me Hme; [assumption|].
    cbn [after fold_left]. apply IH.
    assert (Hsane : sane me)
      by (destruct Hme as [-> | ->]; [apply new_bot_sane | apply in_12h_sane, new_bot_sane]).
    destruct (get_time_returns me arg Hsane) as (b & _ & [-> | ->] & _).
    - assumption.
    - right. destruct Hme as [-> | ->]; reflexivity. }
  apply H. now left.
Qed.

(* ================================================================== *)
(** ** Calls on clock tokens *)
(* ================================================================== *)

Lemma fits_all_digit (values : list str) :
  forall limits, fits values limits -> all_digit values.
Proof.
  induction values as [|v vs IH]; intros [|l ls] H; simpl in H;
    try contradiction; constructor; try tauto.
  - destruct H as (_ & _ & H). eapply IH; eauto.
Qed.

Lemma upper_all_digit (pieces : list str) :
  all_digit pieces -> map upper pieces = pieces.
Proof.
  induction 1 as [|p ps Hp _ IH]; [reflexivity|].
  simpl. now rewrite (upper_digits p (isdigit_all p Hp)), IH.
Qed.

Lemma all_digit_no_colon (pieces : list str) :
  all_digit pieces -> Forall (fun p => mem_c ":" p = false) pieces.
Proof.
  induction 1 as [|p ps Hp _ IH]; constructor; auto.
  apply digits_no_colon, isdigit_all, Hp.
Qed.

(** A token of all-digit segments, the last one no wider than two. *)
Lemma get_time_plain_token (me : DelayBot) (segs : list str) (final : str) :
  meridiems me = meridiems new_bot ->
  length segs = 1 \/ length segs = 2 ->
  all_digit (segs ++ [final]) ->
  length final <= 2 ->
  get_time me (join ":" (segs ++ [final]))
  = outcome_of
      (bind (clock_loop 0 (segs ++ [final])) (fun _ => pure true)
            (mkWorld me [])).
Proof.
  intros Hmer Hcount Hdig Hlen.
  destruct segs as [|first segs]; [simpl in Hcount; lia|].
  inversion Hdig as [|? ? Hfirst Hmore]; subst.
  rewrite (get_time_clock_token me _ first (segs ++ [final])).
  - unfold bind.
    change (first :: segs ++ [final]) with ((first :: segs) ++ [final]).
    now rewrite (clock_fields_no_ending (first :: segs) final (mkWorld me [])
                   Hmer Hlen Hcount).
  - rewrite upper_join. f_equal. now apply upper_all_digit.
  - destruct segs; discriminate.
  - apply isdigit_all, Hfirst.
  - now apply all_digit_no_colon.
Qed.

(** A token of all-digit segments with a marker after the two characters of
    the last one. *)
Lemma get_time_marker_token (me : DelayBot) (segs : list str)
    (final marker : str) :
  meridiems me = meridiems new_bot ->
  clockLimits me <> [] ->
  length segs = 1 \/ length segs = 2 ->
  all_digit (segs ++ [final]) ->
  length final = 2 ->
  In (upper marker) markers ->
  get_time me (join ":" (segs ++ [final ++ marker]))
  = outcome_of
      (bind (clock_loop 0 (segs ++ [final])) (fun _ => pure true)
            (mkWorld (in_12h me)
                     [EndingAndLast (upper marker) (final ++ upper marker)])).
Proof.
  intros Hmer Hlim Hcount Hdig Hlen Hmarker.
  destruct segs as [|first segs]; [simpl in Hcount; lia|].
  inversion Hdig as [|? ? Hfirst Hmore]; subst.
  destruct (marker_facts _ Hmarker) as (_ & _ & Hcolon).
  assert (Hfinal : isdigit final = true).
  { apply Forall_app in Hmore as [_ H]. now inversion H. }
  assert (Hsegs : all_digit segs) by now apply Forall_app in Hmore as [H _].
  rewrite (get_time_clock_token me _ first (segs ++ [final ++ upper marker])).
  - unfold bind.
    change (first :: segs ++ [final ++ upper marker])
      with ((first :: segs) ++ [final ++ upper marker]).
    now rewrite (clock_fields_marker (first :: segs) final (upper marker)
                   (mkWorld me []) Hmer Hlim Hlen Hmarker Hcount).
  - rewrite upper_join. f_equal. cbn [map]. rewrite map_app. cbn [map].
    rewrite upper_app, (upper_digits first (isdigit_all _ Hfirst)),
      (upper_digits final (isdigit_all _ Hfinal)), (upper_all_digit segs Hsegs).
    reflexivity.
  - destruct segs; discriminate.
  - apply isdigit_all, Hfirst.
  - apply Forall_app. split; [now apply all_digit_no_colon|].
    constructor; [|constructor].
    rewrite mem_c_app, Hcolon, orb_false_r.
    apply digits_no_colon, isdigit_all, Hfinal.
Qed.

(** What the validators that exist have in common. *)
Lemma after_new_bot_tables (prior : list str) :
  blockLimits (after new_bot prior) = blockLimits new_bot /\
  meridiems (after new_bot prior) = meridiems new_bot /\
  clockLimits (after new_bot prior) <> [] /\
  in_12h (after new_bot prior) = in_12h new_bot.
Proof.
  destruct (after_new_bot prior) as [-> | ->]; repeat split; discriminate.
Qed.

Lemma last_map {A B} (f : A -> B) (l : list A) (d : A) :
  last (map f l) (f d) = f (last l d).
Proof.
  induction l as [|a l IH]; [reflexivity|].
  destruct l; [reflexivity|]. exact IH.
Qed.

Lemma candidate_upper (tok : str) : candidate (upper tok) = upper (candidate tok).
Proof.
  unfold candidate. rewrite split_upper.
  change (@nil ascii) with (upper []) at 1.
  rewrite last_map. unfold upper. now rewrite skipn_map.
Qed.

(** Lines 136-140 on a token classified as clock. *)
Lemma get_time_bad_meridiem (me : DelayBot) (tok : str) :
  classify (upper tok) (mkWorld me []) = (Next clock, mkWorld me []) ->
  mem_str (upper (candidate tok)) (meridiems me) = false ->
  get_time me tok
  = mkOutcome (Ok false) me [NotAMeridiem (upper (candidate tok))].
Proof.
  intros Hclass Hbad.
  unfold get_time, get_time_body, bind. rewrite Hclass.
  unfold clock_branch.
  destruct (exists_last (split_nonempty ":" (upper tok))) as (front & last_ & E).
  assert (Hcand : upper (candidate tok) = skipn 2 last_).
  { rewrite <- candidate_upper. unfold candidate. now rewrite E, last_last. }
  rewrite E, clock_fields_bad_meridiem; rewrite <- Hcand; [reflexivity|].
  exact Hbad.
Qed.

(** All-digit segments within the limits of their positions, no ending. *)
Lemma get_time_fits (me : DelayBot) (segs : list str) (final : str) :
  meridiems me = meridiems new_bot ->
  length segs = 1 \/ length segs = 2 ->
  length final <= 2 ->
  fits (segs ++ [final]) (clockLimits me) ->
  get_time me (join ":" (segs ++ [final])) = mkOutcome (Ok true) me [].
Proof.
  intros Hmer Hcount Hlen Hfits.
  rewrite get_time_plain_token; auto.
  - unfold bind. now rewrite clock_loop_fits.
  - eapply fits_all_digit; eauto.
Qed.

(** All-digit segments within the 12-hour limits, with a marker. *)
Lemma get_time_fits_marker (me : DelayBot) (segs : list str)
    (final marker : str) :
  meridiems me = meridiems new_bot ->
  clockLimits me <> [] ->
  length segs = 1 \/ length segs = 2 ->
  length final = 2 ->
  In (upper marker) markers ->
  fits (segs ++ [final]) (12%Z :: tl (clockLimits me)) ->
  get_time me (join ":" (segs ++ [final ++ marker]))
  = mkOutcome (Ok true) (in_12h me)
      [EndingAndLast (upper marker) (final ++ upper marker)].
Proof.
  intros Hmer Hlim Hcount Hlen Hmarker Hfits.
  rewrite get_time_marker_token; auto.
  - unfold bind. now rewrite clock_loop_fits.
  - eapply fits_all_digit; eauto.
Qed.

(** With a marker, an hour above 12 stops the loop at its first turn. *)
Lemma get_time_marker_hour_high (me : DelayBot) (h : str) (rest : list str)
    (final marker : str) :
  meridiems me = meridiems new_bot ->
  clockLimits me <> [] ->
  length (h :: rest) = 1 \/ length (h :: rest) = 2 ->
  length final = 2 ->
  In (upper marker) markers ->
  all_digit ((h :: rest) ++ [final]) ->
  (12 < dec_val h)%Z ->
  get_time me (join ":" ((h :: rest) ++ [final ++ marker]))
  = mkOutcome (Ok false) (in_12h me)
      [EndingAndLast (upper marker) (final ++ upper marker);
       ValueTooHigh h 12 0].
Proof.
  intros Hmer Hlim Hcount Hlen Hmarker Hdig Hhigh.
  rewrite get_time_marker_token; auto.
  unfold bind. cbn [app].
  rewrite (clock_loop_too_high h (rest ++ [final]) 0 _ 12); auto.
  now inversion Hdig.
Qed.

(* ================================================================== *)
(** ** The claims *)
(* ================================================================== *)

(** C1.  The verdict of a token depends on the calls made before it: a
    new validator judges ["23:59"] valid; once it has judged ["12:59AM"],
    whose meridiem sets [self.clockLimits[0]] to 12 for good, the same
    validator judges ["23:59"] invalid. *)
Theorem meridiem_call_changes_later_verdict :
  ret (get_time new_bot (lit "23:59")) = Ok true /\
  clockLimits (after new_bot [lit "12:59AM"]) = [12; 59; 59]%Z /\
  get_time (after new_bot [lit "12:59AM"]) (lit "23:59")
  = mkOutcome (Ok false) (in_12h new_bot) [ValueTooHigh (lit "23") 12 0].
Proof. repeat split. Qed.

(** C2.  On a validator whose clock limits are those of [__init__] (no
    meridiem has been read: 24-hour mode), every token [HH:MM] or
    [HH:MM:SS] of two-digit fields with hour at most 23 and minute and
    second at most 59 is judged valid, nothing is printed and the validator
    is unchanged; ["24:00"] is rejected for its hour against the limit 23
    and ["00:60"] for its minute against the limit 59. *)
Theorem clock24_in_range_valid (prior : list str) :
  clockLimits (after new_bot prior) = clockLimits new_bot ->
  (forall h m : str,
      two_digits h -> two_digits m ->
      (dec_val h <= 23)%Z -> (dec_val m <= 59)%Z ->
      get_time (after new_bot prior) (h ++ lit ":" ++ m)
      = mkOutcome (Ok true) (after new_bot prior) []) /\
  (forall h m s : str,
      two_digits h -> two_digits m -> two_digits s ->
      (dec_val h <= 23)%Z -> (dec_val m <= 59)%Z -> (dec_val s <= 59)%Z ->
      get_time (after new_bot prior) (h ++ lit ":" ++ m ++ lit ":" ++ s)
      = mkOutcome (Ok true) (after new_bot prior) []) /\
  get_time (after new_bot prior) (lit "24:00")
  = mkOutcome (Ok false) (after new_bot prior) [ValueTooHigh (lit "24") 23 0] /\
  get_time (after new_bot prior) (lit "00:60")
  = mkOutcome (Ok false) (after new_bot prior) [ValueTooHigh (lit "60") 59 1].
Proof.
  intros Hlim.
  assert (E : after new_bot prior = new_bot).
  { destruct (after_new_bot prior) as [E | E]; [exact E|].
    rewrite E in Hlim. discriminate Hlim. }
  rewrite E. split; [|split; [|split; reflexivity]].
  - intros h m (Hh2 & Hh) (Hm2 & Hm) Hhv Hmv.
    change (h ++ lit ":" ++ m) with (join ":" ([h] ++ [m])).
    apply get_time_fits; [reflexivity | now left | lia |].
    simpl. tauto.
  - intros h m s (Hh2 & Hh) (Hm2 & Hm) (Hs2 & Hs) Hhv Hmv Hsv.
    change (h ++ lit ":" ++ m ++ lit ":" ++ s) with (join ":" ([h; m] ++ [s])).
    apply get_time_fits; [reflexivity | now right | lia |].
    simpl. tauto.
Qed.

Lemma clock24_in_range_valid_witness :
  get_time new_bot (lit "23:59") = mkOutcome (Ok true) new_bot [] /\
  get_time new_bot (lit "23:59:59") = mkOutcome (Ok true) new_bot [].
Proof.
  destruct (clock24_in_range_valid [] eq_refl) as (H2 & H3 & _).
  split.
  - apply (H2 (lit "23") (lit "59")); try (split; reflexivity);
      vm_compute; discriminate.
  - apply (H3 (lit "23") (lit "59") (lit "59")); try (split; reflexivity);
      vm_compute; discriminate.
Defined.

(** C3.  Whatever was validated before, a token of one to four fields, each
    one or two digits and a unit letter among D, H, M, S, with pairwise
    distinct units and magnitudes within D 1, H 24, M 60, S 60, is
    classified as block and judged valid. *)
Theorem block_in_range_valid (prior : list str) (fields : list field) :
  Forall wf_field fields ->
  1 <= length fields <= 4 ->
  NoDup (units fields) ->
  Forall within_block_limit fields ->
  classify (upper (block_token fields)) (mkWorld (after new_bot prior) [])
  = (Next block, mkWorld (after new_bot prior) []) /\
  get_time (after new_bot prior) (block_token fields)
  = mkOutcome (Ok true) (after new_bot prior) [].
Proof.
  intros Hwf Hlen Hnd Hwithin.
  destruct (after_new_bot_tables prior) as (Hb & _).
  split.
  - rewrite (upper_block_token fields Hwf).
    now rewrite (classify_block _ (block_token_matches fields Hwf Hlen)).
  - rewrite (get_time_block_token _ fields Hwf Hlen).
    destruct (block_loop_scan fields [] Hwf [] (mkWorld (after new_bot prior) [])
                Hnd Hb) as [Hok _].
    unfold bind. rewrite <- (app_nil_r (map render fields)).
    now rewrite (Hok Hwithin).
Qed.

Lemma block_in_range_valid_witness :
  get_time new_bot (lit "1D24H60M60S") = mkOutcome (Ok true) new_bot [].
Proof.
  apply (block_in_range_valid []
           [(lit "1", "D"%char); (lit "24", "H"%char);
            (lit "60", "M"%char); (lit "60", "S"%char)]).
  - repeat constructor.
  - simpl. lia.
  - repeat constructor; simpl; intuition discriminate.
  - apply Forall_cons; [|apply Forall_cons; [|apply Forall_cons;
      [|apply Forall_cons; [|apply Forall_nil]]]]; unfold within_block_limit.
    + left. split; [reflexivity | vm_compute; discriminate].
    + right. left. split; [reflexivity | vm_compute; discriminate].
    + right. right. left. split; [reflexivity | vm_compute; discriminate].
    + right. right. right. split; [reflexivity | vm_compute; discriminate].
Defined.

(** C4, as the specification states it, fails on ["2D1S1S"]: a block token
    in which S is repeated, rejected for the magnitude of its first field,
    not for the repetition. *)
Lemma repeated_unit_not_always_DefinedTwice :
  block_token [(lit "2", "D"%char); (lit "1", "S"%char); (lit "1", "S"%char)]
  = lit "2D1S1S" /\
  classify (upper (lit "2D1S1S")) (mkWorld new_bot [])
  = (Next block, mkWorld new_bot []) /\
  ~ NoDup (units [(lit "2", "D"%char); (lit "1", "S"%char); (lit "1", "S"%char)]) /\
  get_time new_bot (lit "2D1S1S") = mkOutcome (Ok false) new_bot [ValueIsTooHigh] /\
  out (get_time new_bot (lit "2D1S1S")) <> [DefinedTwice].
Proof.
  split; [reflexivity|]. split; [reflexivity|]. split.
  - intros H. inversion H as [|? ? _ H']; subst.
    inversion H' as [|? ? Hin _]; subst. apply Hin. now left.
  - split; [reflexivity | discriminate].
Qed.

(** C4, amended.  Whatever was validated before, a block token with a
    repeated unit letter is judged invalid.  Its fields are scanned from the
    left with the list of units seen, the scan stops at the first field that
    fails, and for each field the repetition is tested before the magnitude:
    with [f] the first field whose unit was seen before, the diagnostic is
    "You defined a time twice!" whatever the magnitude of [f], when every
    field before [f] is within its limit, and "Value is too high!"
    otherwise. *)
Theorem repeated_unit_invalid (prior : list str) (fields : list field) :
  Forall wf_field fields ->
  1 <= length fields <= 4 ->
  ~ NoDup (units fields) ->
  exists (pre : list field) (f : field) (post : list field),
    fields = pre ++ f :: post /\
    NoDup (units pre) /\ In (snd f) (units pre) /\
    ret (get_time (after new_bot prior) (block_token fields)) = Ok false /\
    (Forall within_block_limit pre ->
     out (get_time (after new_bot prior) (block_token fields)) = [DefinedTwice]) /\
    (~ Forall within_block_limit pre ->
     out (get_time (after new_bot prior) (block_token fields)) = [ValueIsTooHigh]).
Proof.
  intros Hwf Hlen Hdup.
  destruct (first_repeated_unit fields Hdup) as (pre & [ds u] & post & -> & Hnd & Hin).
  exists pre, (ds, u), post. repeat split; auto;
    rewrite (get_time_block_token _ _ Hwf Hlen);
    apply Forall_app in Hwf as [Hpre _];
    destruct (after_new_bot_tables prior) as (Hb & _);
    destruct (block_loop_scan pre (render (ds, u) :: map render post) Hpre []
                (mkWorld (after new_bot prior) []) Hnd Hb) as [Hok Hhigh];
    rewrite map_app; cbn [map]; unfold bind.
  - destruct (Forall_dec _ within_block_limit_dec pre) as [Hall | Hnot].
    + rewrite (Hok Hall). unfold render. cbn [fst snd app].
      now rewrite (block_loop_seen ds u _ _ _ Hin).
    + now rewrite (Hhigh Hnot).
  - intros Hall. rewrite (Hok Hall). unfold render. cbn [fst snd app].
    now rewrite (block_loop_seen ds u _ _ _ Hin).
  - intros Hnot. now rewrite (Hhigh Hnot).
Qed.

Lemma repeated_unit_invalid_witness :
  exists (pre : list field) (f : field) (post : list field),
    [(lit "1", "S"%char); (lit "61", "S"%char)] = pre ++ f :: post /\
    NoDup (units pre) /\ In (snd f) (units pre) /\
    ret (get_time new_bot (lit "1S61S")) = Ok false /\
    (Forall within_block_limit pre ->
     out (get_time new_bot (lit "1S61S")) = [DefinedTwice]) /\
    (~ Forall within_block_limit pre ->
     out (get_time new_bot (lit "1S61S")) = [ValueIsTooHigh]).
Proof.
  apply (repeated_unit_invalid [] [(lit "1", "S"%char); (lit "61", "S"%char)]).
  - repeat constructor.
  - simpl. lia.
  - intros H. inversion H as [|? ? Hin _]; subst. apply Hin. now left.
Defined.

(** C5, as the specification states it, fails on ["12:5AM"]: a clock token
    that ends in the marker AM, whose all-digit segments 12 and 5 are within
    12 and 59, rejected because the ending read after the first two
    characters of ["5AM"] is ["M"]. *)
Lemma marker_after_one_digit_rejected :
  lit "12:5AM" = join ":" ([lit "12"] ++ [lit "5" ++ lit "AM"]) /\
  In (lit "AM") markers /\
  fits ([lit "12"] ++ [lit "5"]) [12; 59; 59]%Z /\
  get_time new_bot (lit "12:5AM")
  = mkOutcome (Ok false) new_bot [NotAMeridiem (lit "M")].
Proof.
  split; [reflexivity|]. split; [now left|]. split; [|reflexivity].
  simpl. repeat split; vm_compute; discriminate.
Qed.

(** C5, amended.  Whatever was validated before, a clock token of two or
    three segments whose last segment is exactly two digits followed by a
    marker AM, PM, A.M. or P.M. in any case, and whose all-digit segments
    have hour at most 12 and minute and second at most 59, is judged valid
    with the hour limit set to 12; with such a marker, an hour above 12 is
    rejected against the limit 12. *)
Theorem clock12_in_range_valid (prior : list str) (segs : list str)
    (final marker : str) :
  length segs = 1 \/ length segs = 2 ->
  length final = 2 ->
  In (upper marker) markers ->
  all_digit (segs ++ [final]) ->
  (fits (segs ++ [final]) [12; 59; 59]%Z ->
   get_time (after new_bot prior) (join ":" (segs ++ [final ++ marker]))
   = mkOutcome (Ok true) (in_12h new_bot)
       [EndingAndLast (upper marker) (final ++ upper marker)]) /\
  (forall (h : str) (rest : list str),
      segs = h :: rest -> (12 < dec_val h)%Z ->
      get_time (after new_bot prior) (join ":" (segs ++ [final ++ marker]))
      = mkOutcome (Ok false) (in_12h new_bot)
          [EndingAndLast (upper marker) (final ++ upper marker);
           ValueTooHigh h 12 0]).
Proof.
  intros Hcount Hlen Hmarker Hdig.
  destruct (after_new_bot_tables prior) as (_ & Hmer & Hlim & H12).
  split.
  - intros Hfits. rewrite <- H12.
    apply get_time_fits_marker; auto.
    destruct (after_new_bot prior) as [-> | ->]; exact Hfits.
  - intros h rest -> Hhigh. rewrite <- H12.
    apply get_time_marker_hour_high; auto.
Qed.

Lemma clock12_in_range_valid_witness :
  get_time new_bot (lit "12:59am")
  = mkOutcome (Ok true) (in_12h new_bot)
      [EndingAndLast (lit "AM") (lit "59AM")] /\
  get_time new_bot (lit "13:00PM")
  = mkOutcome (Ok false) (in_12h new_bot)
      [EndingAndLast (lit "PM") (lit "00PM"); ValueTooHigh (lit "13") 12 0].
Proof.
  split.
  - apply (clock12_in_range_valid [] [lit "12"] (lit "59") (lit "am")).
    + now left.
    + reflexivity.
    + now left.
    + repeat constructor.
    + simpl. repeat split; vm_compute; discriminate.
  - apply (clock12_in_range_valid [] [lit "13"] (lit "00") (lit "PM"))
      with (h := lit "13") (rest := @nil (list ascii)).
    + now left.
    + reflexivity.
    + right. now left.
    + repeat constructor.
    + reflexivity.
    + vm_compute. reflexivity.
Defined.

(** C6.  Whatever was validated before, for a token classified as clock the
    characters beyond the first two of its last colon-separated segment are
    the meridiem candidate; when the candidate in upper case is none of AM,
    PM, A.M., P.M. and the empty string, the call returns [False] having
    printed only that the candidate is not a meridiem, whatever the number
    and the content of the segments; so for ["12:59XM"]. *)
Theorem invalid_meridiem_first :
  (forall (prior : list str) (tok : str),
      classify (upper tok) (mkWorld (after new_bot prior) [])
      = (Next clock, mkWorld (after new_bot prior) []) ->
      mem_str (upper (candidate tok))
        [lit "AM"; lit "PM"; lit "A.M."; lit "P.M."; lit ""] = false ->
      get_time (after new_bot prior) tok
      = mkOutcome (Ok false) (after new_bot prior)
          [NotAMeridiem (upper (candidate tok))]) /\
  get_time new_bot (lit "12:59XM")
  = mkOutcome (Ok false) new_bot [NotAMeridiem (lit "XM")].
Proof.
  split; [|reflexivity].
  intros prior tok Hclass Hbad.
  apply get_time_bad_meridiem; [exact Hclass|].
  destruct (after_new_bot_tables prior) as (_ & -> & _). exact Hbad.
Qed.

Lemma invalid_meridiem_first_witness :
  get_time new_bot (lit "7:15:30zz")
  = mkOutcome (Ok false) new_bot [NotAMeridiem (lit "ZZ")].
Proof.
  destruct invalid_meridiem_first as [H _].
  apply (H [] (lit "7:15:30zz")); reflexivity.
Defined.

(** C8.  A token and its upper-case form have the same outcome on every
    validator: the same value returned, the same lines printed, the same
    validator afterwards. *)
Theorem get_time_case_insensitive (me : DelayBot) (tok : str) :
  get_time me tok = get_time me (upper tok).
Proof.
  unfold get_time, get_time_body. now rewrite upper_idem.
Qed.

(** C9.  On a validator in 24-hour mode, a token of two or three all-digit
    segments of any width, each within the limit of its position, the last
    one with nothing beyond its first two characters, is judged valid; so
    ["1:5"] and ["9:30"].  What is beyond the first two characters of the
    last segment is the meridiem candidate: ["12:5PM"] is rejected for the
    candidate ["M"]. *)
Theorem clock_segments_any_width (prior : list str) :
  clockLimits (after new_bot prior) = clockLimits new_bot ->
  (forall (segs : list str) (final : str),
      length segs = 1 \/ length segs = 2 ->
      skipn 2 final = [] ->
      fits (segs ++ [final]) [23; 59; 59]%Z ->
      get_time (after new_bot prior) (join ":" (segs ++ [final]))
      = mkOutcome (Ok true) (after new_bot prior) []) /\
  get_time (after new_bot prior) (lit "1:5")
  = mkOutcome (Ok true) (after new_bot prior) [] /\
  get_time (after new_bot prior) (lit "9:30")
  = mkOutcome (Ok true) (after new_bot prior) [] /\
  get_time (after new_bot prior) (lit "12:5PM")
  = mkOutcome (Ok false) (after new_bot prior) [NotAMeridiem (lit "M")].
Proof.
  intros Hlim.
  assert (E : after new_bot prior = new_bot).
  { destruct (after_new_bot prior) as [E | E]; [exact E|].
    rewrite E in Hlim. discriminate Hlim. }
  rewrite E. split; [|repeat split].
  intros segs final Hcount Hskip Hfits.
  apply get_time_fits; auto.
  now apply skipn_all_iff.
Qed.

Lemma clock_segments_any_width_witness :
  get_time new_bot (lit "007:9") = mkOutcome (Ok true) new_bot [].
Proof.
  destruct (clock_segments_any_width [] eq_refl) as [H _].
  apply (H [lit "007"] (lit "9")).
  - now left.
  - reflexivity.
  - simpl. repeat split; vm_compute; discriminate.
Defined.

(** C10.  Whatever was validated before, a token classified as clock with
    more than three segments and a candidate that is no meridiem is rejected
    for the candidate, and "Missing Values!" is not printed; so for
    ["1:2:3:4:5XM"], whose candidate is ["M"].  A string with a colon in it
    splits into two pieces at least, so the list whose length line 149 tests
    never has fewer than two elements, and a call that prints "Missing
    Values!" was given more than three segments. *)
Theorem meridiem_check_before_count :
  (forall (prior : list str) (tok : str),
      classify (upper tok) (mkWorld (after new_bot prior) [])
      = (Next clock, mkWorld (after new_bot prior) []) ->
      3 < length (split ":" (upper tok)) ->
      mem_str (upper (candidate tok)) (meridiems new_bot) = false ->
      get_time (after new_bot prior) tok
      = mkOutcome (Ok false) (after new_bot prior)
          [NotAMeridiem (upper (candidate tok))]) /\
  (length (split ":" (upper (lit "1:2:3:4:5XM"))) = 5 /\
   get_time new_bot (lit "1:2:3:4:5XM")
   = mkOutcome (Ok false) new_bot [NotAMeridiem (lit "M")]) /\
  (forall arg : str,
      mem_c ":" arg = true ->
      2 <= length (split ":" arg) /\
      2 <= length (removelast (split ":" arg)
                   ++ [firstn 2 (last (split ":" arg) [])])) /\
  (forall (prior : list str) (tok : str),
      In MissingValues (out (get_time (after new_bot prior) tok)) ->
      3 < length (split ":" (upper tok))).
Proof.
  split; [|split; [split; reflexivity|split]].
  - intros prior tok Hclass _ Hbad.
    apply get_time_bad_meridiem; [exact Hclass|].
    destruct (after_new_bot_tables prior) as (_ & -> & _). exact Hbad.
  - intros arg Hcolon.
    pose proof (split_length_ge_2 ":" arg Hcolon) as Hlen.
    split; [exact Hlen|].
    destruct (exists_last (split_nonempty ":" arg)) as (front & last_ & E).
    rewrite E in *. rewrite removelast_last, length_app in *. exact Hlen.
  - intros prior tok.
    destruct (get_time_returns (after new_bot prior) tok
                (after_sane prior new_bot new_bot_sane)) as (_ & _ & _ & H).
    exact H.
Qed.

Lemma meridiem_check_before_count_witness :
  get_time new_bot (lit "1:2:3:4:5XM")
  = mkOutcome (Ok false) new_bot [NotAMeridiem (lit "M")] /\
  2 <= length (split ":" (lit "7:")).
Proof.
  destruct meridiem_check_before_count as (H & _ & Hsplit & _).
  split.
  - apply (H [] (lit "1:2:3:4:5XM")); [reflexivity | simpl; lia | reflexivity].
  - apply (Hsplit (lit "7:")). reflexivity.
Defined.

(* ================================================================== *)
(** ** The language of the block pattern *)
(* ================================================================== *)

(** Whatever a repetition of [regexp] has read is a run of fields. *)
Lemma rep_regexp_inv {A} (k : nat -> str -> option A) (x : A) (hi : nat) :
  forall (lo pos : nat) (s : str),
    rep (rmatch regexp) k lo hi pos s = Some x ->
    exists (fields : list field) (rest : str),
      Forall wf_field fields /\ lo <= length fields <= hi /\
      s = block_token fields ++ rest /\
      k (pos + length (block_token fields)) rest = Some x.
Proof.
  induction hi as [|hi IH]; intros lo pos s H; cbn [rep] in H.
  - destruct lo; [|discriminate].
    exists [], s. repeat split; auto. simpl. now rewrite Nat.add_0_r.
  - destruct (rmatch regexp pos s (rep (rmatch regexp) k (pred lo) hi))
      as [y|] eqn:E.
    + injection H as ->.
      apply rmatch_regexp_inv in E as (ds & u & r & -> & Hf & Hrep).
      apply IH in Hrep as (fs & rest & Hwf & Hlen & -> & Hk).
      exists ((ds, u) :: fs), rest. repeat split.
      * constructor; assumption.
      * simpl. lia.
      * simpl. lia.
      * rewrite block_token_cons, <- app_assoc. reflexivity.
      * rewrite <- Hk. f_equal.
        rewrite block_token_cons, length_app. simpl. lia.
    + destruct lo; [|discriminate].
      exists [], s. repeat split; auto; simpl; try lia.
      now rewrite Nat.add_0_r.
Qed.

(** The converse of [rep_regexp_inv], with something left after the fields
    that starts no field. *)
Lemma rep_regexp_fields_rest {A} (fields : list field) (rest : str)
    (k : nat -> str -> option A) (x : A) :
  Forall wf_field fields ->
  (forall pos (k' : nat -> str -> option A), rmatch regexp pos rest k' = None) ->
  forall lo hi pos,
    lo <= length fields <= hi ->
    k (pos + length (block_token fields)) rest = Some x ->
    rep (rmatch regexp) k lo hi pos (block_token fields ++ rest) = Some x.
Proof.
  intros Hwf Hrest.
  induction Hwf as [|[ds u] fs Hf Hfs IH]; intros lo hi pos [Hlo Hhi] Hk.
  - simpl in *. assert (lo = 0) by lia. subst lo.
    rewrite Nat.add_0_r in Hk.
    destruct hi; cbn [rep]; [assumption|].
    now rewrite Hrest.
  - destruct hi as [|hi]; [simpl in Hhi; lia|].
    cbn [rep]. rewrite block_token_cons, <- app_assoc. cbn [app].
    rewrite rmatch_regexp_field by exact Hf.
    rewrite IH; [reflexivity | simpl in *; lia |].
    rewrite <- Hk. f_equal.
    rewrite block_token_cons, length_app. simpl. lia.
Qed.

Lemma rmatch_regexp_newline {A} (pos : nat) (k : nat -> str -> option A) :
  rmatch regexp pos ["010"%char] k = None.
Proof. reflexivity. Qed.

Lemma block_token_no_colon (fields : list field) :
  Forall wf_field fields -> mem_c ":" (block_token fields) = false.
Proof.
  induction 1 as [|[ds u] fs (Hd & _ & Hu) _ IH]; [reflexivity|].
  cbn [fst snd] in *.
  rewrite block_token_cons, mem_c_app.
  rewrite (digits_no_colon ds (isdigit_all ds Hd)). cbn [orb mem_c existsb].
  fold (mem_c ":" (block_token fs)). rewrite IH, orb_false_r.
  destruct (unit_cases u Hu) as [-> | [-> | [-> | ->]]]; reflexivity.
Qed.

Lemma block_match_iff (s : str) :
  re_match blockRegexpMatch s = true <->
  exists fields : list field,
    Forall wf_field fields /\ 1 <= length fields <= 4 /\
    (s = block_token fields \/ s = block_token fields ++ ["010"%char]).
Proof.
  unfold re_match, blockRegexpMatch. cbn [rmatch]. split.
  - destruct (rep _ _ 1 4 0 s) as [[]|] eqn:E; [intros _ | discriminate].
    apply rep_regexp_inv in E as (fields & rest & Hwf & Hlen & -> & Hk).
    exists fields. repeat split; try tauto.
    destruct rest as [|c [|c' rest]]; cbn [rmatch] in Hk.
    + left. now rewrite app_nil_r.
    + right. destruct (eqb_c c "010") eqn:Hc; [|discriminate].
      apply eqb_c_eq in Hc. now subst.
    + discriminate.
  - intros (fields & Hwf & Hlen & [-> | ->]).
    + now rewrite (rep_regexp_fields fields _ tt).
    + now rewrite (rep_regexp_fields_rest fields ["010"%char] _ tt Hwf
                     (fun pos k' => rmatch_regexp_newline pos k')).
Qed.

(** X1.  The anchored pattern of line 24 matches exactly the tokens made of
    one to four fields (one or two digits and a letter among D, H, M, S),
    and these tokens followed by one newline, since [$] also holds just
    before a newline that ends the string. *)
Theorem blockRegexpMatch_language (s : str) :
  re_match blockRegexpMatch s = true <->
  exists fields : list field,
    Forall wf_field fields /\ 1 <= length fields <= 4 /\
    (s = block_token fields \/ s = block_token fields ++ ["010"%char]).
Proof. apply block_match_iff. Qed.

Lemma colon_no_block_match (arg : str) :
  mem_c ":" arg = true -> re_match blockRegexpMatch arg = false.
Proof.
  intros Hcolon.
  destruct (re_match blockRegexpMatch arg) eqn:E; [exfalso | reflexivity].
  apply block_match_iff in E as (fields & Hwf & _ & [-> | ->]).
  - rewrite (block_token_no_colon fields Hwf) in Hcolon. discriminate.
  - rewrite mem_c_app, (block_token_no_colon fields Hwf) in Hcolon.
    discriminate.
Qed.

(** X2.  Lines 103-110 never take a token with a colon for a block token:
    the clock branch is entered exactly for the tokens that hold a colon,
    with nothing printed and the validator untouched. *)
Theorem colon_iff_clock (arg : str) (w : world) :
  mem_c ":" arg = true <-> classify arg w = (Next clock, w).
Proof.
  unfold classify. split.
  - intros H. now rewrite (colon_no_block_match arg H), H.
  - destruct (re_match blockRegexpMatch arg); [discriminate|].
    destruct (mem_c ":" arg); [reflexivity | discriminate].
Qed.

(* ================================================================== *)
(** ** The verdict on block tokens *)
(* ================================================================== *)

(** The three ways the loop of lines 118-130 ends on the fields of a block
    token. *)
Lemma get_time_block_cases (me : DelayBot) (fields : list field) :
  blockLimits me = blockLimits new_bot ->
  Forall wf_field fields ->
  1 <= length fields <= 4 ->
  (NoDup (units fields) -> Forall within_block_limit fields ->
   get_time me (block_token fields) = mkOutcome (Ok true) me []) /\
  (NoDup (units fields) -> ~ Forall within_block_limit fields ->
   get_time me (block_token fields) = mkOutcome (Ok false) me [ValueIsTooHigh]) /\
  (~ NoDup (units fields) ->
   ret (get_time me (block_token fields)) = Ok false /\
   bot (get_time me (block_token fields)) = me).
Proof.
  intros Hb Hwf Hlen.
  rewrite (get_time_block_token me fields Hwf Hlen). unfold bind.
  repeat split.
  - intros Hnd Hall.
    destruct (block_loop_scan fields [] Hwf [] (mkWorld me []) Hnd Hb) as [Hok _].
    rewrite <- (app_nil_r (map render fields)). now rewrite (Hok Hall).
  - intros Hnd Hnot.
    destruct (block_loop_scan fields [] Hwf [] (mkWorld me []) Hnd Hb) as [_ Hhigh].
    rewrite <- (app_nil_r (map render fields)). now rewrite (Hhigh Hnot).
  - destruct (first_repeated_unit fields H) as (pre & [ds u] & post & -> & Hnd & Hin).
    apply Forall_app in Hwf as [Hpre _].
    destruct (block_loop_scan pre (render (ds, u) :: map render post) Hpre []
                (mkWorld me []) Hnd Hb) as [Hok Hhigh].
    rewrite map_app. cbn [map].
    destruct (Forall_dec _ within_block_limit_dec pre) as [Hall | Hnot].
    + rewrite (Hok Hall). unfold render. cbn [fst snd app].
      now rewrite (block_loop_seen ds u _ _ _ Hin).
    + now rewrite (Hhigh Hnot).
  - destruct (first_repeated_unit fields H) as (pre & [ds u] & post & -> & Hnd & Hin).
    apply Forall_app in Hwf as [Hpre _].
    destruct (block_loop_scan pre (render (ds, u) :: map render post) Hpre []
                (mkWorld me []) Hnd Hb) as [Hok Hhigh].
    rewrite map_app. cbn [map].
    destruct (Forall_dec _ within_block_limit_dec pre) as [Hall | Hnot].
    + rewrite (Hok Hall). unfold render. cbn [fst snd app].
      now rewrite (block_loop_seen ds u _ _ _ Hin).
    + now rewrite (Hhigh Hnot).
Qed.

Lemma block_verdict_iff (me : DelayBot) (fields : list field) :
  blockLimits me = blockLimits new_bot ->
  Forall wf_field fields ->
  1 <= length fields <= 4 ->
  (ret (get_time me (block_token fields)) = Ok true <->
   NoDup (units fields) /\ Forall within_block_limit fields).
Proof.
  intros Hb Hwf Hlen.
  destruct (get_time_block_cases me fields Hb Hwf Hlen)
    as (Hok & Hhigh & Hdup).
  split.
  - intros Htrue.
    destruct (NoDup_dec ascii_dec (units fields)) as [Hnd | Hnd].
    + split; [assumption|].
      destruct (Forall_dec _ within_block_limit_dec fields) as [Hall | Hnot];
        [assumption|].
      rewrite (Hhigh Hnd Hnot) in Htrue. discriminate.
    + destruct (Hdup Hnd) as [E _]. rewrite E in Htrue. discriminate.
  - intros [Hnd Hall]. now rewrite (Hok Hnd Hall).
Qed.

(** X3.  Whatever was validated before, a token of one to four fields is
    judged valid if and only if its units are pairwise distinct and every
    magnitude is within the limit of its unit. *)
Theorem block_verdict (prior : list str) (fields : list field) :
  Forall wf_field fields ->
  1 <= length fields <= 4 ->
  (ret (get_time (after new_bot prior) (block_token fields)) = Ok true <->
   NoDup (units fields) /\ Forall within_block_limit fields).
Proof.
  intros Hwf Hlen. apply block_verdict_iff; auto.
  apply (after_new_bot_tables prior).
Qed.

Lemma block_verdict_witness :
  ret (get_time new_bot (lit "3M2H")) = Ok true <->
  NoDup (units [(lit "3", "M"%char); (lit "2", "H"%char)]) /\
  Forall within_block_limit [(lit "3", "M"%char); (lit "2", "H"%char)].
Proof.
  apply (block_verdict [] [(lit "3", "M"%char); (lit "2", "H"%char)]).
  - repeat constructor.
  - simpl. lia.
Defined.

(** X4.  Whatever was validated before, the order of the fields of a block
    token does not change the value returned: a token and any rearrangement
    of its fields are both judged valid or both judged invalid. *)
Theorem block_verdict_order (prior : list str) (fields fields' : list field) :
  Forall wf_field fields ->
  1 <= length fields <= 4 ->
  Permutation fields fields' ->
  ret (get_time (after new_bot prior) (block_token fields'))
  = ret (get_time (after new_bot prior) (block_token fields)).
Proof.
  intros Hwf Hlen Hperm.
  assert (Hwf' : Forall wf_field fields')
    by (eapply Permutation_Forall; eauto).
  assert (Hlen' : 1 <= length fields' <= 4)
    by (rewrite <- (Permutation_length Hperm); exact Hlen).
  destruct (after_new_bot_tables prior) as (Htab & _).
  pose proof (block_verdict_iff _ fields Htab Hwf Hlen) as Hv.
  pose proof (block_verdict_iff _ fields' Htab Hwf' Hlen') as Hv'.
  assert (Hiff : NoDup (units fields) /\ Forall within_block_limit fields <->
                 NoDup (units fields') /\ Forall within_block_limit fields').
  { split; intros [Hnd Hall]; split.
    - eapply Permutation_NoDup; [|exact Hnd].
      now apply Permutation_map.
    - eapply Permutation_Forall; eauto.
    - eapply Permutation_NoDup; [|exact Hnd].
      apply Permutation_map. now symmetry.
    - eapply Permutation_Forall; [symmetry|]; eauto. }
  destruct (get_time_returns (after new_bot prior) (block_token fields)
              (after_sane prior new_bot new_bot_sane)) as (b & Hb & _).
  destruct (get_time_returns (after new_bot prior) (block_token fields')
              (after_sane prior new_bot new_bot_sane)) as (b' & Hb' & _).
  rewrite Hb, Hb' in *. f_equal.
  destruct b, b'; try reflexivity.
  - assert (E : Ok false = Ok true) by (apply Hv', Hiff, Hv; reflexivity).
    discriminate E.
  - assert (E : Ok false = Ok true) by (apply Hv, Hiff, Hv'; reflexivity).
    discriminate E.
Qed.

Lemma block_verdict_order_witness :
  ret (get_time new_bot (lit "4S1D")) = ret (get_time new_bot (lit "1D4S")).
Proof.
  apply (block_verdict_order []
           [(lit "1", "D"%char); (lit "4", "S"%char)]
           [(lit "4", "S"%char); (lit "1", "D"%char)]).
  - repeat constructor.
  - simpl. lia.
  - apply perm_swap.
Defined.

(* ================================================================== *)
(** ** The verdict on clock tokens *)
(* ================================================================== *)

Lemma fits_dec (values : list str) :
  forall limits, {fits values limits} + {~ fits values limits}.
Proof.
  induction values as [|v vs IH]; intros [|l ls]; simpl; auto.
  destruct (isdigit v); [|right; intros (H & _); discriminate].
  destruct (Z_le_dec (dec_val v) l); [|right; tauto].
  destruct (IH ls); [left | right]; tauto.
Qed.

(** The loop of lines 154-163 goes through exactly when the values fit
    their limits; otherwise it stops having printed one diagnostic. *)
Lemma clock_loop_result (values : list str) :
  forall (x : nat) (w : world),
    x + length values <= length (clockLimits (self w)) ->
    (fits values (skipn x (clockLimits (self w))) /\
     clock_loop x values w = (Next tt, w)) \/
    (~ fits values (skipn x (clockLimits (self w))) /\
     exists d, diagnostic d /\
       clock_loop x values w
       = (Return false, mkWorld (self w) (stdout w ++ [d]))).
Proof.
  induction values as [|v vs IH]; intros x w Hlen.
  - left. split; [exact I | reflexivity].
  - destruct (skipn x (clockLimits (self w))) as [|l ls] eqn:E.
    + apply (f_equal (@length Z)) in E. rewrite length_skipn in E.
      simpl in *. lia.
    + apply skipn_nth_error in E as [Hnth Hskip].
      cbn [clock_loop fits]. destruct (isdigit v) eqn:Hv; cbn [negb].
      * rewrite (int_digits v Hv). run. unfold list_getitem.
        rewrite Hnth. run.
        destruct (dec_val v >? l)%Z eqn:Hgt.
        -- right. split.
           ++ intros (_ & Hle & _). rewrite Z.gtb_ltb in Hgt.
              apply Z.ltb_lt in Hgt. lia.
           ++ run. eexists. split; [|reflexivity]. exact I.
        -- rewrite Z.gtb_ltb in Hgt. apply Z.ltb_ge in Hgt.
           destruct (IH (S x) w) as [[Hfits Hrun] | [Hnot Hrun]].
           ++ simpl in Hlen. lia.
           ++ left. rewrite Hskip in Hfits. now rewrite Hrun.
           ++ right. rewrite Hskip in Hnot. split; [tauto | exact Hrun].
      * right. split; [intros (H & _); discriminate|].
        run. eexists. split; [|reflexivity]. exact I.
Qed.

(** Lines 136-152 as one equation: the ending is tested, then the limit is
    switched, then the segments are counted. *)
Lemma clock_fields_eq (front : list str) (last_ : str) (w : world) :
  clockLimits (self w) <> [] ->
  clock_fields (front ++ [last_]) w
  = if negb (mem_str (skipn 2 last_) (meridiems (self w))) then
      (Return false,
       mkWorld (self w) (stdout w ++ [NotAMeridiem (skipn 2 last_)]))
    else if negb (Nat.eqb (length (front ++ [firstn 2 last_])) 2
                  || Nat.eqb (length (front ++ [firstn 2 last_])) 3) then
      (Return false,
       mkWorld (self (after_ending (skipn 2 last_) last_ w))
               (stdout (after_ending (skipn 2 last_) last_ w) ++ [MissingValues]))
    else clock_loop 0 (front ++ [firstn 2 last_])
           (after_ending (skipn 2 last_) last_ w).
Proof.
  intros Hlim. unfold clock_fields, after_ending.
  rewrite getitem_last_snoc. run.
  destruct (mem_str (skipn 2 last_) (meridiems (self w))); cbn [negb];
    [|run; reflexivity].
  rewrite removelast_last.
  destruct (eqb_str (skipn 2 last_) []); cbn [negb].
  - run. destruct (negb _); [run|]; reflexivity.
  - rewrite bind_assoc.
    assert (Hset : forall B (f : unit -> M B),
              bind (set_clockLimits_0 12) f w
              = f tt (mkWorld (in_12h (self w)) (stdout w))).
    { intros B f. unfold bind, set_clockLimits_0, in_12h.
      destruct (clockLimits (self w)); [congruence | reflexivity]. }
    rewrite Hset. run. destruct (negb _); [run|]; reflexivity.
Qed.

(** The call on a token with a colon comes down to lines 136-163 on its
    segments. *)
Lemma get_time_colon (me : DelayBot) (tok : str) :
  mem_c ":" (upper tok) = true ->
  get_time me tok
  = outcome_of
      (bind (clock_fields (split ":" (upper tok))) (fun _ => pure true)
            (mkWorld me [])).
Proof.
  intros Hcolon. unfold get_time, get_time_body, classify.
  rewrite (colon_no_block_match _ Hcolon), Hcolon. run. reflexivity.
Qed.

Lemma split_last (tok : str) :
  split ":" (upper tok)
  = removelast (split ":" (upper tok)) ++ [last (split ":" (upper tok)) []].
Proof. apply app_removelast_last, split_nonempty. Qed.

Lemma clock_values_length (tok : str) :
  length (clock_values tok) = length (split ":" (upper tok)).
Proof.
  unfold clock_values. rewrite (split_last tok) at 3.
  rewrite !length_app. reflexivity.
Qed.

Lemma in_markers (e : str) :
  In e markers <->
  mem_str e (meridiems new_bot) = true /\ eqb_str e [] = false.
Proof.
  split.
  - intros H. destruct (marker_facts e H) as (H1 & H2 & _). auto.
  - intros [H1 H2]. unfold mem_str in H1. apply existsb_exists in H1.
    destruct H1 as (m & Hin & Heq). apply eqb_str_eq in Heq. subst m.
    destruct Hin as [<- | [<- | [<- | [<- | [<- | []]]]]];
      try (now left); try (right; now left); try (right; right; now left);
      try (right; right; right; now left).
Qed.

(** The call on a token with a colon, by cases on its candidate and on the
    number of its segments. *)
Lemma get_time_clock_cases (me : DelayBot) (tok : str) :
  sane me ->
  mem_c ":" (upper tok) = true ->
  get_time me tok
  = if negb (mem_str (candidate (upper tok)) (meridiems new_bot)) then
      mkOutcome (Ok false) me [NotAMeridiem (candidate (upper tok))]
    else if negb (Nat.eqb (length (clock_values tok)) 2
                  || Nat.eqb (length (clock_values tok)) 3) then
      mkOutcome (Ok false)
        (self (after_ending (candidate (upper tok))
                 (last (split ":" (upper tok)) []) (mkWorld me [])))
        (stdout (after_ending (candidate (upper tok))
                   (last (split ":" (upper tok)) []) (mkWorld me []))
         ++ [MissingValues])
    else outcome_of
           (bind (clock_loop 0 (clock_values tok)) (fun _ => pure true)
                 (after_ending (candidate (upper tok))
                    (last (split ":" (upper tok)) []) (mkWorld me []))).
Proof.
  intros (Hb & Hm & Hc) Hcolon.
  rewrite (get_time_colon me tok Hcolon). unfold bind.
  rewrite (split_last tok) at 1.
  rewrite clock_fields_eq by (cbn [self]; destruct (clockLimits me); discriminate).
  cbn [self]. rewrite Hm. fold (candidate (upper tok)). fold (clock_values tok).
  destruct (negb (mem_str _ _)); [reflexivity|].
  destruct (negb (_ || _)); reflexivity.
Qed.

Lemma after_ending_self (e l : str) (me : DelayBot) :
  self (after_ending e l (mkWorld me []))
  = if eqb_str e [] then me else in_12h me.
Proof. unfold after_ending. destruct (eqb_str e []); reflexivity. Qed.

Lemma after_ending_sane (e l : str) (me : DelayBot) :
  sane me -> sane (self (after_ending e l (mkWorld me []))).
Proof.
  intros H. rewrite after_ending_self.
  destruct (eqb_str e []); [assumption | now apply in_12h_sane].
Qed.

(** The verdict on a token with a colon. *)
Lemma clock_verdict_iff (me : DelayBot) (tok : str) :
  sane me ->
  mem_c ":" (upper tok) = true ->
  (ret (get_time me tok) = Ok true <->
   mem_str (candidate (upper tok)) (meridiems new_bot) = true /\
   (length (split ":" (upper tok)) = 2 \/ length (split ":" (upper tok)) = 3) /\
   fits (clock_values tok)
     (clockLimits (if eqb_str (candidate (upper tok)) [] then me else in_12h me))).
Proof.
  intros Hsane Hcolon.
  rewrite (get_time_clock_cases me tok Hsane Hcolon).
  rewrite <- (clock_values_length tok), <- after_ending_self
    with (l := last (split ":" (upper tok)) []).
  destruct (mem_str (candidate (upper tok)) (meridiems new_bot)); cbn [negb].
  2: { split; [discriminate | intros (H & _); discriminate]. }
  destruct (Nat.eqb (length (clock_values tok)) 2
            || Nat.eqb (length (clock_values tok)) 3) eqn:Hcount; cbn [negb].
  2: { split; [discriminate|]. intros (_ & [H | H] & _);
       rewrite H in Hcount; discriminate. }
  assert (Hlen : length (clock_values tok) = 2 \/ length (clock_values tok) = 3).
  { apply orb_true_iff in Hcount as [H | H]; apply Nat.eqb_eq in H; auto. }
  unfold bind.
  match goal with
  | |- context [clock_loop 0 ?vs ?w0] =>
      destruct (clock_loop_result vs 0 w0) as [[Hfits Hrun] | [Hnot (d & _ & Hrun)]]
  end.
  - destruct (after_ending_sane (candidate (upper tok))
                (last (split ":" (upper tok)) []) me Hsane) as (_ & _ & H3).
    rewrite H3. simpl. lia.
  - rewrite Hrun. cbn. tauto.
  - rewrite Hrun. cbn. split; [discriminate|].
    intros (_ & _ & H). contradiction.
Qed.

(** The validator a call leaves behind. *)
Lemma get_time_bot (me : DelayBot) (tok : str) :
  sane me ->
  bot (get_time me tok)
  = if mem_c ":" (upper tok)
       && mem_str (candidate (upper tok)) (meridiems new_bot)
       && negb (eqb_str (candidate (upper tok)) [])
    then in_12h me else me.
Proof.
  intros Hsane. destruct (mem_c ":" (upper tok)) eqn:Hcolon; cbn [andb].
  - rewrite (get_time_clock_cases me tok Hsane Hcolon).
    destruct (mem_str (candidate (upper tok)) (meridiems new_bot));
      cbn [negb andb]; [|reflexivity].
    destruct (negb (_ || _)) eqn:Hcount.
    + cbn [bot]. rewrite after_ending_self.
      destruct (eqb_str _ []); reflexivity.
    + unfold bind.
      match goal with
      | |- context [clock_loop 0 ?vs ?w0] =>
          destruct (clock_loop_result vs 0 w0)
            as [[_ Hrun] | [_ (d & _ & Hrun)]]
      end.
      * destruct (after_ending_sane (candidate (upper tok))
                    (last (split ":" (upper tok)) []) me Hsane) as (_ & _ & H3).
        rewrite H3. unfold clock_values in *.
        apply count_accepted in Hcount. exact Hcount.
      * rewrite Hrun. cbn [outcome_of pure bot]. rewrite after_ending_self.
        destruct (eqb_str _ []); reflexivity.
      * rewrite Hrun. cbn [outcome_of bot self]. rewrite after_ending_self.
        destruct (eqb_str _ []); reflexivity.
  - destruct Hsane as (Hb & _).
    unfold get_time, get_time_body, classify. rewrite Hcolon.
    destruct (re_match blockRegexpMatch (upper tok)).
    + run.
      destruct (block_loop_ends (findall blockRegexpFind (upper tok))
                  (findall_fields _ _ _) [] (mkWorld me []) Hb)
        as (r & w' & E & Hself & [-> | ->] & _);
        unfold bind; rewrite E; exact Hself.
    + run. reflexivity.
Qed.

(** X5.  Whatever was validated before, a call leaves the validator with
    the hour limit 12 when its token holds a colon and the candidate of the
    token is one of AM, PM, A.M., P.M., whether the token is then judged
    valid or not; any other call leaves the validator as it was. *)
Theorem hour_limit_switch (prior : list str) (tok : str) :
  (mem_c ":" (upper tok) = true /\ In (candidate (upper tok)) markers ->
   bot (get_time (after new_bot prior) tok) = in_12h new_bot) /\
  (~ (mem_c ":" (upper tok) = true /\ In (candidate (upper tok)) markers) ->
   bot (get_time (after new_bot prior) tok) = after new_bot prior).
Proof.
  rewrite (get_time_bot _ tok (after_sane prior new_bot new_bot_sane)).
  destruct (after_new_bot_tables prior) as (_ & _ & _ & H12).
  split.
  - intros [-> Hin]. apply in_markers in Hin as [-> ->]. exact H12.
  - intros Hnot.
    destruct (mem_c ":" (upper tok)); [|reflexivity].
    destruct (mem_str _ _) eqn:Hmem; [|reflexivity].
    destruct (eqb_str _ []) eqn:He; [reflexivity|].
    exfalso. apply Hnot. split; [reflexivity|].
    apply in_markers. auto.
Qed.

Lemma hour_limit_switch_witness :
  ret (get_time new_bot (lit "1:2:3:4:59pm")) = Ok false /\
  bot (get_time new_bot (lit "1:2:3:4:59pm")) = in_12h new_bot /\
  bot (get_time new_bot (lit "23:59")) = new_bot.
Proof.
  split; [reflexivity|]. split.
  - apply (hour_limit_switch [] (lit "1:2:3:4:59pm")).
    split; [reflexivity | right; now left].
  - apply (hour_limit_switch [] (lit "23:59")).
    intros [_ [H | [H | [H | [H | []]]]]]; discriminate H.
Defined.

Lemma after_app (me : DelayBot) (calls calls' : list str) :
  after me (calls ++ calls') = after (after me calls) calls'.
Proof. unfold after. apply fold_left_app. Qed.

Lemma after_in_12h (calls : list str) :
  after (in_12h new_bot) calls = in_12h new_bot.
Proof.
  induction calls as [|arg calls IH]; [reflexivity|].
  cbn [after fold_left].
  destruct (get_time_returns (in_12h new_bot) arg
              (in_12h_sane new_bot new_bot_sane)) as (b & _ & [-> | ->] & _);
    exact IH.
Qed.

(** X6.  The switch to the hour limit 12 is for good: once a token with a
    colon and a candidate among AM, PM, A.M., P.M. has been given to the
    validator, whatever is validated next leaves the limit at 12, and every
    token [HH:MM] with an hour above 12 is judged invalid from then on. *)
Theorem hour_limit_12_is_permanent (prior later : list str) (tok : str) :
  mem_c ":" (upper tok) = true ->
  In (candidate (upper tok)) markers ->
  after new_bot (prior ++ tok :: later) = in_12h new_bot /\
  forall h m : str,
    two_digits h -> two_digits m -> (12 < dec_val h)%Z ->
    get_time (after new_bot (prior ++ tok :: later)) (h ++ lit ":" ++ m)
    = mkOutcome (Ok false) (in_12h new_bot) [ValueTooHigh h 12 0].
Proof.
  intros Hcolon Hin.
  assert (E : after new_bot (prior ++ tok :: later) = in_12h new_bot).
  { rewrite after_app. cbn [after fold_left].
    rewrite (get_time_bot _ tok (after_sane prior new_bot new_bot_sane)).
    apply in_markers in Hin as [Hmem Hne].
    rewrite Hcolon, Hmem, Hne. cbn [andb negb].
    destruct (after_new_bot_tables prior) as (_ & _ & _ & ->).
    apply after_in_12h. }
  split; [exact E|]. rewrite E.
  intros h m (Hh2 & Hh) (Hm2 & Hm) Hhigh.
  change (h ++ lit ":" ++ m) with (join ":" ([h] ++ [m])).
  rewrite get_time_plain_token;
    [| reflexivity | now left | repeat constructor; assumption | lia].
  unfold bind. cbn [app].
  now rewrite (clock_loop_too_high h [m] 0 _ 12).
Qed.

Lemma hour_limit_12_is_permanent_witness :
  after new_bot ([lit "1d"] ++ lit "99:99a.m." :: [lit "23:59"; lit "2h"])
  = in_12h new_bot /\
  get_time (after new_bot ([lit "1d"] ++ lit "99:99a.m." :: [lit "23:59"; lit "2h"]))
    (lit "18:30")
  = mkOutcome (Ok false) (in_12h new_bot) [ValueTooHigh (lit "18") 12 0].
Proof.
  destruct (hour_limit_12_is_permanent [lit "1d"] [lit "23:59"; lit "2h"]
              (lit "99:99a.m.")) as [E H].
  - reflexivity.
  - right. right. now left.
  - split; [exact E|].
    apply (H (lit "18") (lit "30")); split; reflexivity.
Defined.

(** X7.  Whatever was validated before, a token with a colon is judged
    valid if and only if its candidate in upper case is one of AM, PM,
    A.M., P.M. and the empty string, it has two or three segments, and each
    segment (the last one cut to its first two characters) is a non-empty
    run of digits of value at most the limit of its position: 59 for the
    second and the third, and for the first 12 when the candidate is a
    marker, the hour limit of the validator when it is empty. *)
Theorem clock_verdict (prior : list str) (tok : str) :
  mem_c ":" (upper tok) = true ->
  (ret (get_time (after new_bot prior) tok) = Ok true <->
   mem_str (upper (candidate tok))
     [lit "AM"; lit "PM"; lit "A.M."; lit "P.M."; lit ""] = true /\
   (length (split ":" tok) = 2 \/ length (split ":" tok) = 3) /\
   fits (clock_values tok)
     (if eqb_str (candidate tok) []
      then clockLimits (after new_bot prior)
      else [12; 59; 59]%Z)).
Proof.
  intros Hcolon.
  rewrite (clock_verdict_iff _ tok (after_sane prior new_bot new_bot_sane) Hcolon).
  rewrite candidate_upper, split_upper, length_map.
  assert (E : eqb_str (upper (candidate tok)) [] = eqb_str (candidate tok) [])
    by (destruct (candidate tok); reflexivity).
  rewrite E.
  destruct (after_new_bot_tables prior) as (_ & _ & _ & H12).
  destruct (eqb_str (candidate tok) []); [reflexivity|].
  rewrite H12. reflexivity.
Qed.

Lemma clock_verdict_witness :
  ret (get_time new_bot (lit "0012:7:59a.m.")) = Ok true <->
  mem_str (upper (candidate (lit "0012:7:59a.m.")))
    [lit "AM"; lit "PM"; lit "A.M."; lit "P.M."; lit ""] = true /\
  (length (split ":" (lit "0012:7:59a.m.")) = 2 \/
   length (split ":" (lit "0012:7:59a.m.")) = 3) /\
  fits (clock_values (lit "0012:7:59a.m.")) [12; 59; 59]%Z.
Proof.
  apply (clock_verdict [] (lit "0012:7:59a.m.")). reflexivity.
Defined.

(* ================================================================== *)
(** ** What a call prints *)
(* ================================================================== *)

(** The loop of lines 118-130 goes through in silence or stops having
    printed one diagnostic. *)
Lemma block_loop_result (values : list str) :
  Forall is_rendered_field values ->
  forall (tally : list ascii) (w : world),
    blockLimits (self w) = blockLimits new_bot ->
    block_loop values tally w = (Next tt, w) \/
    exists d, diagnostic d /\
      block_loop values tally w
      = (Return false, mkWorld (self w) (stdout w ++ [d])).
Proof.
  induction 1 as [|v vs (ds & u & -> & Hf) Hvs IH]; intros tally w Hlim.
  - now left.
  - destruct (in_dec ascii_dec u tally) as [Hin | Hnew].
    + right. exists DefinedTwice. split; [exact I|].
      apply block_loop_seen, Hin.
    + destruct (block_loop_fresh ds u vs tally w Hf Hnew Hlim) as [Hok Hhigh].
      destruct (within_block_limit_dec (ds, u)) as [Hw | Hw].
      * rewrite (Hok Hw). apply IH, Hlim.
      * right. exists ValueIsTooHigh. split; [exact I | exact (Hhigh Hw)].
Qed.

Lemma after_ending_stdout (e l : str) (me : DelayBot) :
  stdout (after_ending e l (mkWorld me [])) = [] \/
  stdout (after_ending e l (mkWorld me [])) = [EndingAndLast e l].
Proof.
  unfold after_ending. destruct (eqb_str e []); [now left | now right].
Qed.

(** What a call on a sane validator returns and prints. *)
Lemma get_time_prints (me : DelayBot) (tok : str) :
  sane me ->
  exists echo : list printed,
    (echo = [] \/ exists e l, echo = [EndingAndLast e l]) /\
    ((ret (get_time me tok) = Ok true /\ out (get_time me tok) = echo) \/
     (ret (get_time me tok) = Ok false /\
      exists d, diagnostic d /\ out (get_time me tok) = echo ++ [d])).
Proof.
  intros Hsane. destruct (mem_c ":" (upper tok)) eqn:Hcolon.
  - rewrite (get_time_clock_cases me tok Hsane Hcolon).
    destruct (negb (mem_str _ _)).
    { exists []. split; [now left|]. right. split; [reflexivity|].
      eexists. split; [|reflexivity]. exact I. }
    set (w1 := after_ending (candidate (upper tok))
                 (last (split ":" (upper tok)) []) (mkWorld me [])).
    assert (Hecho : stdout w1 = [] \/ exists e l, stdout w1 = [EndingAndLast e l]).
    { destruct (after_ending_stdout (candidate (upper tok))
                  (last (split ":" (upper tok)) []) me) as [H | H];
        [now left | right; eauto]. }
    exists (stdout w1). split; [exact Hecho|].
    destruct (negb (_ || _)) eqn:Hcount.
    { right. split; [reflexivity|]. exists MissingValues. now split. }
    unfold bind.
    destruct (clock_loop_result (clock_values tok) 0 w1)
      as [[_ Hrun] | [_ (d & Hd & Hrun)]].
    + destruct (after_ending_sane (candidate (upper tok))
                  (last (split ":" (upper tok)) []) me Hsane) as (_ & _ & H3).
      fold w1 in H3. rewrite H3. unfold clock_values in *.
      apply count_accepted in Hcount. exact Hcount.
    + rewrite Hrun. left. now split.
    + rewrite Hrun. right. split; [reflexivity|]. exists d. now split.
  - destruct Hsane as (Hb & _). exists []. split; [now left|].
    unfold get_time, get_time_body, classify. rewrite Hcolon.
    destruct (re_match blockRegexpMatch (upper tok)).
    + run.
      destruct (block_loop_result (findall blockRegexpFind (upper tok))
                  (findall_fields _ _ _) [] (mkWorld me []) Hb)
        as [Hrun | (d & Hd & Hrun)]; unfold bind; rewrite Hrun.
      * left. now split.
      * right. split; [reflexivity|]. exists d. now split.
    + run. right. split; [reflexivity|]. exists NotAValidFormat. now split.
Qed.

(** X8.  Whatever was validated before and whatever the token, a call that
    returns [True] has printed no diagnostic, and a call that returns
    [False] has printed exactly one, as its last line; the only other line
    a call can print is the echo of line 145, once and first. *)
Theorem one_diagnostic_per_rejection (prior : list str) (tok : str) :
  exists echo : list printed,
    (echo = [] \/ exists e l, echo = [EndingAndLast e l]) /\
    ((ret (get_time (after new_bot prior) tok) = Ok true /\
      out (get_time (after new_bot prior) tok) = echo) \/
     (ret (get_time (after new_bot prior) tok) = Ok false /\
      exists d, diagnostic d /\
        out (get_time (after new_bot prior) tok) = echo ++ [d])).
Proof. apply get_time_prints, after_sane, new_bot_sane. Qed.

(* ================================================================== *)
(** ** A newline at the end of the token *)
(* ================================================================== *)

Lemma findall_block_token_rest (fields : list field) (rest : str) :
  Forall wf_field fields ->
  forall pos,
    findall_from regexp pos 0 (block_token fields ++ rest)
    = map render fields
      ++ findall_from regexp (pos + length (block_token fields)) 0 rest.
Proof.
  induction 1 as [|[ds u] fs Hf Hfs IH]; intros pos.
  - simpl. now rewrite Nat.add_0_r.
  - rewrite block_token_cons, <- app_assoc. cbn [app].
    rewrite findall_field by exact Hf.
    cbn [map app]. f_equal. rewrite IH. f_equal. f_equal.
    rewrite length_app. simpl. lia.
Qed.

Lemma get_time_block_newline (me : DelayBot) (fields : list field) :
  Forall wf_field fields ->
  1 <= length fields <= 4 ->
  get_time me (block_token fields ++ ["010"%char])
  = get_time me (block_token fields).
Proof.
  intros Hwf Hlen.
  rewrite (get_time_block_token me fields Hwf Hlen).
  unfold get_time, get_time_body.
  rewrite upper_app, (upper_block_token fields Hwf).
  change (upper ["010"%char]) with ["010"%char].
  rewrite classify_block.
  - run. unfold blockRegexpFind, findall.
    rewrite (findall_block_token_rest fields _ Hwf).
    cbn [findall_from rmatch regexp rep]. now rewrite app_nil_r.
  - apply block_match_iff. exists fields. auto.
Qed.

Lemma split_snoc (sep c : ascii) (s : str) :
  eqb_c c sep = false ->
  split sep (s ++ [c])
  = removelast (split sep s) ++ [last (split sep s) [] ++ [c]].
Proof.
  intros Hc. induction s as [|a s IH].
  - simpl. now rewrite Hc.
  - cbn [app split]. rewrite IH.
    pose proof (split_nonempty sep s) as Hne.
    destruct (eqb_c a sep).
    + destruct (split sep s) as [|p ps]; [contradiction|].
      destruct ps; reflexivity.
    + destruct (split sep s) as [|p ps]; [contradiction|].
      destruct ps as [|q ps]; [reflexivity|].
      cbn [removelast app last]. reflexivity.
Qed.

Lemma no_meridiem_ends_in_newline (x : str) :
  mem_str (x ++ ["010"%char]) (meridiems new_bot) = false.
Proof.
  destruct (mem_str _ _) eqn:E; [exfalso | reflexivity].
  unfold mem_str in E. apply existsb_exists in E as (m & Hin & Heq).
  apply eqb_str_eq in Heq.
  apply (f_equal (fun s => last s " "%char)) in Heq.
  rewrite last_last in Heq.
  destruct Hin as [<- | [<- | [<- | [<- | [<- | []]]]]]; discriminate Heq.
Qed.

Lemma fits_last (front : list str) (v : str) :
  forall limits, fits (front ++ [v]) limits -> isdigit v = true.
Proof.
  intros limits H. apply fits_all_digit in H.
  apply Forall_app in H as [_ H]. now inversion H.
Qed.

Lemma isdigit_newline (x : str) : isdigit (x ++ ["010"%char]) = false.
Proof.
  destruct (isdigit _) eqn:E; [exfalso | reflexivity].
  apply isdigit_all in E. rewrite forallb_app in E.
  apply andb_true_iff in E as [_ E]. discriminate E.
Qed.

Lemma get_time_clock_newline (me : DelayBot) (tok : str) :
  sane me ->
  mem_c ":" tok = true ->
  ret (get_time me (tok ++ ["010"%char])) = Ok false.
Proof.
  intros Hsane Hcolon.
  assert (Hcolon' : mem_c ":" (upper (tok ++ ["010"%char])) = true).
  { rewrite upper_app, mem_c_app.
    replace (mem_c ":" (upper tok)) with true; [reflexivity|].
    symmetry. clear Hsane. induction tok as [|c t IH]; [discriminate|].
    simpl in *. rewrite (eqb_c_sym ":" (upper_c c)), upper_c_colon.
    rewrite (eqb_c_sym ":" c) in Hcolon.
    destruct (eqb_c c ":"); [reflexivity | simpl in *; auto]. }
  destruct (get_time_returns me (tok ++ ["010"%char]) Hsane) as ([|] & Hret & _);
    [exfalso | exact Hret].
  apply (clock_verdict_iff me _ Hsane Hcolon') in Hret as (Hmem & _ & Hfits).
  unfold candidate, clock_values in *.
  rewrite upper_app in *. change (upper ["010"%char]) with ["010"%char] in *.
  rewrite (split_snoc ":" "010" (upper tok) eq_refl) in *.
  rewrite last_last, removelast_last in *.
  set (l := last (split ":" (upper tok)) []) in *.
  destruct (Nat.le_gt_cases 2 (length l)) as [Hlong | Hshort].
  - rewrite skipn_app in Hmem.
    replace (2 - length l) with 0 in Hmem by lia. cbn [skipn] in Hmem.
    rewrite no_meridiem_ends_in_newline in Hmem. discriminate.
  - rewrite firstn_all2 in Hfits by (rewrite length_app; simpl; lia).
    apply fits_last in Hfits. rewrite isdigit_newline in Hfits. discriminate.
Qed.

(** X9.  Whatever was validated before, one newline after a block token
    changes nothing to the outcome, since the pattern of line 24 ends in
    [$]; one newline after a token with a colon makes it invalid, as the
    newline ends up in the candidate or in the last value. *)
Theorem trailing_newline (prior : list str) :
  (forall fields : list field,
      Forall wf_field fields -> 1 <= length fields <= 4 ->
      get_time (after new_bot prior) (block_token fields ++ ["010"%char])
      = get_time (after new_bot prior) (block_token fields)) /\
  (forall tok : str,
      mem_c ":" tok = true ->
      ret (get_time (after new_bot prior) (tok ++ ["010"%char])) = Ok false).
Proof.
  split.
  - intros fields. apply get_time_block_newline.
  - intros tok. apply get_time_clock_newline, after_sane, new_bot_sane.
Qed.

Lemma trailing_newline_witness :
  get_time new_bot (lit "1D2H" ++ ["010"%char]) = get_time new_bot (lit "1D2H") /\
  ret (get_time new_bot (lit "23:59" ++ ["010"%char])) = Ok false.
Proof.
  destruct (trailing_newline []) as [Hblock Hclock]. split.
  - apply (Hblock [(lit "1", "D"%char); (lit "2", "H"%char)]).
    + repeat constructor.
    + simpl. lia.
  - apply (Hclock (lit "23:59")). reflexivity.
Defined.

(* ================================================================== *)
(** ** [parse_command] *)
(* ================================================================== *)

Lemma upper_lower_c (c : ascii) : upper_c (lower_c c) = upper_c c.
Proof. each_char c. Qed.

Lemma lower_c_space (c : ascii) : eqb_c (lower_c c) " " = eqb_c c " ".
Proof. each_char c. Qed.

Lemma upper_lower (s : str) : upper (lower s) = upper s.
Proof.
  unfold upper, lower. rewrite map_map. apply map_ext, upper_lower_c.
Qed.

(** The validator does not see the case of its token. *)
Lemma get_time_lower (me : DelayBot) (tok : str) :
  get_time me (lower tok) = get_time me tok.
Proof. unfold get_time, get_time_body. now rewrite upper_lower. Qed.

Lemma split_lower (s : str) : split " " (lower s) = map lower (split " " s).
Proof.
  induction s as [|c s IH]; simpl; [reflexivity|].
  rewrite lower_c_space. destruct (eqb_c c " "); simpl.
  - now rewrite IH.
  - rewrite IH. destruct (split " " s); reflexivity.
Qed.

Lemma split_pieces (sep : ascii) (s : str) :
  Forall (fun piece => mem_c sep piece = false) (split sep s).
Proof.
  induction s as [|c s IH]; simpl.
  - repeat constructor.
  - destruct (eqb_c c sep) eqn:E.
    + constructor; [reflexivity | exact IH].
    + destruct (split sep s) as [|piece pieces]; [repeat constructor|].
      * simpl. now rewrite eqb_c_sym, E.
      * inversion IH as [|? ? Hp Hps]; subst. constructor; [|exact Hps].
        simpl. now rewrite eqb_c_sym, E, Hp.
Qed.

Lemma call_get_time_returns (p : process) (tok : str) :
  sane (validator p) ->
  exists b,
    ret (get_time (validator p) tok) = Ok b /\
    call_get_time tok p = (inl b, validated p tok).
Proof.
  intros Hsane.
  destruct (get_time_returns (validator p) tok Hsane) as (b & Hb & _).
  exists b. split; [exact Hb|].
  unfold call_get_time. now rewrite Hb.
Qed.

Lemma isascii_lower_c (c : ascii) : isascii_c (lower_c c) = isascii_c c.
Proof. each_char c. Qed.

Lemma isascii_lower (s : str) : isascii (lower s) = isascii s.
Proof.
  induction s as [|c s IH]; simpl; [reflexivity|].
  now rewrite isascii_lower_c, IH.
Qed.

Lemma isascii_app (a b : str) : isascii (a ++ b) = isascii a && isascii b.
Proof. apply forallb_app. Qed.

Lemma digit_isascii (c : ascii) : isdigit_c c = true -> isascii_c c = true.
Proof. each_char c. Qed.

Lemma digits_isascii (s : str) : isdigit s = true -> isascii s = true.
Proof.
  intros H. apply isdigit_all in H.
  induction s as [|c s IH]; simpl in *; [reflexivity|].
  apply andb_true_iff in H as [Hc Hs].
  now rewrite (digit_isascii c Hc), IH.
Qed.

(** The pieces of a string of ASCII characters are of ASCII characters. *)
Lemma split_isascii (sep : ascii) (s : str) :
  isascii s = true -> Forall (fun piece => isascii piece = true) (split sep s).
Proof.
  induction s as [|c s IH]; simpl; intros H.
  - repeat constructor.
  - apply andb_true_iff in H as [Hc Hs]. specialize (IH Hs).
    destruct (eqb_c c sep).
    + constructor; [reflexivity | exact IH].
    + destruct (split sep s) as [|piece pieces]; [repeat constructor|].
      * simpl. now rewrite Hc.
      * inversion IH as [|? ? Hp Hps]; subst. constructor; [|exact Hps].
        simpl. now rewrite Hc, Hp.
Qed.

Lemma parse_command_cons (p : process) (tok : str) (rest : list str) :
  sane (validator p) ->
  isascii tok = true ->
  exists b,
    ret (get_time (validator p) tok) = Ok b /\
    parse_command (tok :: rest) p = (inl (reply_to tok b), validated p tok).
Proof.
  intros Hsane Hascii.
  destruct (call_get_time_returns p tok Hsane) as (b & Hb & Hcall).
  exists b. split; [exact Hb|].
  unfold parse_command, bind_P, getitem, unicode_iadd.
  cbn [nth_error pure_P app]. rewrite Hascii. cbn [pure_P].
  rewrite Hcall. destruct b; reflexivity.
Qed.

(** Line 173 on a first word that the ascii codec does not decode. *)
Lemma parse_command_undecoded (p : process) (tok : str) (rest : list str) :
  isascii tok = false ->
  parse_command (tok :: rest) p = (inr UnicodeDecodeError, p).
Proof.
  intros Hascii.
  unfold parse_command, bind_P, getitem, unicode_iadd.
  cbn [nth_error pure_P]. now rewrite Hascii.
Qed.

(** X10.  On a command whose first word is of ASCII characters and a
    validator as [get_time] leaves them, [parse_command] does not raise: it
    returns the first word followed by " is a proper time signature" when
    [get_time] returns [True] on that word and by " is not proper!!!! nope"
    when it returns [False], the words after the first play no part, and the
    validator and the console are as that call of [get_time] leaves them.
    On the empty command it raises [IndexError]. *)
Theorem parse_command_reply (p : process) :
  sane (validator p) ->
  (forall (tok : str) (rest : list str),
      isascii tok = true ->
      exists b,
        ret (get_time (validator p) tok) = Ok b /\
        parse_command (tok :: rest) p
        = (inl (reply_to tok b), validated p tok)) /\
  parse_command [] p = (inr (Builtin IndexError), p).
Proof.
  intros Hsane. split; [|reflexivity].
  intros tok rest Hascii. now apply parse_command_cons.
Qed.

Lemma parse_command_reply_witness :
  parse_command [lit "1d2h"; lit "again"] (construct (lit "DelayBot"))
  = (inl (lit "1d2h is a proper time signature"),
     construct (lit "DelayBot")).
Proof.
  destruct (parse_command_reply (construct (lit "DelayBot")) new_bot_sane)
    as [H _].
  destruct (H (lit "1d2h") [lit "again"] eq_refl) as (b & Hb & ->).
  injection Hb as <-. reflexivity.
Defined.

(** X18.  On a command whose first word is a [str] with a byte above 127,
    [parse_command] raises [UnicodeDecodeError] at line 173, where the word
    is added to the [unicode] of line 171: [get_time] is not called, nothing
    is printed and the validator is as it was. *)
Theorem parse_command_high_byte (p : process) (tok : str) (rest : list str) :
  isascii tok = false ->
  parse_command (tok :: rest) p = (inr UnicodeDecodeError, p).
Proof. apply parse_command_undecoded. Qed.

Lemma parse_command_high_byte_witness :
  parse_command [["1"; ":"; "178"]%char] (construct (lit "DelayBot"))
  = (inr UnicodeDecodeError, construct (lit "DelayBot")).
Proof.
  apply (parse_command_high_byte (construct (lit "DelayBot"))
           ["1"; ":"; "178"]%char []).
  reflexivity.
Defined.

(* ================================================================== *)
(** ** [respond] and [send_message] *)
(* ================================================================== *)

Lemma eqb_str_refl (a : str) : eqb_str a a = true.
Proof. now apply eqb_str_eq. Qed.

Lemma eqb_str_neq (a b : str) : eqb_str a b = false <-> a <> b.
Proof.
  split.
  - intros H E. apply eqb_str_eq in E. congruence.
  - intros H. destruct (eqb_str a b) eqn:E; [|reflexivity].
    apply eqb_str_eq in E. contradiction.
Qed.

Lemma lookup_store_same (d : list (list ascii * list ascii)) (key v : str) :
  lookup (store d key v) key = Some v.
Proof.
  induction d as [|[k v0] d IH]; simpl.
  - now rewrite eqb_str_refl.
  - destruct (eqb_str key k) eqn:E; simpl; rewrite E; [reflexivity | exact IH].
Qed.

Lemma lookup_store_other (d : list (list ascii * list ascii))
    (key key' v : str) :
  eqb_str key' key = false ->
  lookup (store d key v) key' = lookup d key'.
Proof.
  intros Hne. induction d as [|[k v0] d IH]; simpl.
  - now rewrite Hne.
  - destruct (eqb_str key k) eqn:E; simpl.
    + apply eqb_str_eq in E. subst k. now rewrite Hne.
    + now rewrite IH.
Qed.

(** Lines 79-87 on a dict with the three keys. *)
Lemma send_message_sends (p : process) (subject to content : str) :
  lookup (msg p) (lit "subject") = Some subject ->
  lookup (msg p) (lit "display_recipient") = Some to ->
  lookup (msg p) (lit "content") = Some content ->
  send_message p
  = (inl tt,
     mkProcess (key_word p) (validator p) (console p)
               (sent p ++ [stream_message subject to content]) (msg p)).
Proof.
  intros Hs Ht Hc. unfold send_message, bind_P, msg_getitem.
  now rewrite Hs, Ht, Hc.
Qed.

(** Lines 62-76 as one equation, on a message that has a content. *)
Lemma respond_eq (p : process) (m : list (list ascii * list ascii)) (c : str) :
  lookup m (lit "content") = Some c ->
  respond_to p m
  = if eqb_str (hd [] (split " " (lower c))) (key_word p) then
      match nth_error (split " " (lower c)) 1 with
      | None => (inr (Builtin IndexError), with_msg p m)
      | Some c1 =>
          if eqb_str c1 (lit "crash") then (inr ZeroDivisionError, with_msg p m)
          else
            bind_P (parse_command (skipn 1 (split " " (lower c))))
              (fun reply =>
                 bind_P (msg_setitem (lit "content") reply)
                        (fun _ => send_message))
              (with_msg p m)
      end
    else (inl tt, with_msg p m).
Proof.
  intros Hc. unfold respond_to, respond.
  unfold bind_P at 1. unfold msg_getitem at 1. cbn [msg]. rewrite Hc.
  pose proof (split_nonempty " " (lower c)) as Hne.
  destruct (split " " (lower c)) as [|w0 ws] eqn:E; [contradiction|].
  unfold bind_P at 1. cbn [getitem nth_error pure_P hd].
  unfold bind_P at 1. cbn [get_key_word key_word].
  destruct (eqb_str w0 (key_word p)); [|reflexivity].
  destruct ws as [|c1 ws]; [reflexivity|].
  unfold bind_P at 1. cbn [getitem nth_error pure_P].
  unfold bind_P at 1.
  destruct (eqb_str c1 (lit "crash")); reflexivity.
Qed.

(** A message whose words are [words]: they hold no space and are joined by
    single spaces. *)
Lemma split_words (words : list str) :
  words <> [] ->
  Forall (fun w => mem_c " " w = false) words ->
  split " " (lower (join " " words)) = map lower words.
Proof.
  intros Hne Hsp. rewrite split_lower, split_join; auto.
Qed.

(** The process once [respond] has answered the token [t] of the message
    [m] with the verdict [b]. *)
Lemma respond_answers (p : process) (m : list (list ascii * list ascii))
    (c t : str) (rest : list str) (subject to : str) :
  sane (validator p) ->
  lookup m (lit "content") = Some c ->
  split " " (lower c) = key_word p :: t :: rest ->
  t <> lit "crash" ->
  isascii t = true ->
  lookup m (lit "subject") = Some subject ->
  lookup m (lit "display_recipient") = Some to ->
  exists b,
    ret (get_time (validator p) t) = Ok b /\
    respond_to p m
    = (inl tt,
       mkProcess (key_word p) (bot (get_time (validator p) t))
         (console p ++ out (get_time (validator p) t))
         (sent p ++ [stream_message subject to (reply_to t b)])
         (store m (lit "content") (reply_to t b))).
Proof.
  intros Hsane Hc Hwords Hcrash Hascii Hs Ht.
  rewrite (respond_eq p m c Hc), Hwords. cbn [hd nth_error skipn].
  rewrite eqb_str_refl.
  apply eqb_str_neq in Hcrash. rewrite Hcrash.
  destruct (parse_command_cons (with_msg p m) t rest Hsane Hascii)
    as (b & Hb & Hrun).
  exists b. split; [exact Hb|].
  unfold bind_P at 1. rewrite Hrun.
  unfold bind_P at 1. cbn [msg_setitem].
  rewrite (send_message_sends _ subject to (reply_to t b)).
  - reflexivity.
  - cbn [msg validated with_msg]. now rewrite lookup_store_other.
  - cbn [msg validated with_msg]. now rewrite lookup_store_other.
  - cbn [msg validated with_msg]. apply lookup_store_same.
Qed.

(** X11.  For a message of a stream whose content is words separated by
    single spaces, the first of which is the key word in any case and the
    second of which is of ASCII characters and not "crash", on a bot whose
    validator is as
    [get_time] leaves them, [respond] does not raise and hands exactly one
    dict to the client: a stream message with the subject and the recipient
    of the message, whose content is the second word in lower case followed
    by the verdict of [get_time] on that word as it was typed.  The words
    after the second play no part, the content of [msg] is overwritten with
    the reply, and the validator and the console are as that call of
    [get_time] leaves them. *)
Theorem respond_replies (p : process) (m : list (list ascii * list ascii))
    (k t : str) (rest : list str) (subject to : str) :
  sane (validator p) ->
  lookup m (lit "content") = Some (join " " (k :: t :: rest)) ->
  Forall (fun w => mem_c " " w = false) (k :: t :: rest) ->
  lower k = key_word p ->
  lower t <> lit "crash" ->
  isascii t = true ->
  lookup m (lit "subject") = Some subject ->
  lookup m (lit "display_recipient") = Some to ->
  exists b,
    ret (get_time (validator p) t) = Ok b /\
    respond_to p m
    = (inl tt,
       mkProcess (key_word p) (bot (get_time (validator p) t))
         (console p ++ out (get_time (validator p) t))
         (sent p ++ [stream_message subject to (reply_to (lower t) b)])
         (store m (lit "content") (reply_to (lower t) b))).
Proof.
  intros Hsane Hc Hsp Hk Hcrash Hascii Hs Ht.
  destruct (respond_answers p m _ (lower t) (map lower rest) subject to
              Hsane Hc) as (b & Hb & Hrun); auto.
  - rewrite split_words by (auto; discriminate). cbn [map]. now rewrite Hk.
  - now rewrite isascii_lower.
  - rewrite get_time_lower in *. eauto.
Qed.

Lemma respond_replies_witness :
  respond_to (construct (lit "DelayBot"))
    [(lit "content", lit "Delaybot 1D2H please");
     (lit "subject", lit "timers"); (lit "display_recipient", lit "test-bot")]
  = (inl tt,
     mkProcess (lit "delaybot") new_bot []
       [stream_message (lit "timers") (lit "test-bot")
          (lit "1d2h is a proper time signature")]
       [(lit "content", lit "1d2h is a proper time signature");
        (lit "subject", lit "timers");
        (lit "display_recipient", lit "test-bot")]).
Proof.
  destruct (respond_replies (construct (lit "DelayBot"))
              [(lit "content", lit "Delaybot 1D2H please");
               (lit "subject", lit "timers");
               (lit "display_recipient", lit "test-bot")]
              (lit "Delaybot") (lit "1D2H") [lit "please"]
              (lit "timers") (lit "test-bot")) as (b & Hb & ->).
  - exact new_bot_sane.
  - reflexivity.
  - repeat constructor.
  - reflexivity.
  - discriminate.
  - reflexivity.
  - reflexivity.
  - reflexivity.
  - injection Hb as <-. reflexivity.
Defined.

(** The second word of a content of ASCII characters is of ASCII
    characters. *)
Lemma second_word_isascii (c w t : str) (rest : list str) :
  isascii c = true ->
  split " " (lower c) = w :: t :: rest ->
  isascii t = false -> False.
Proof.
  intros Hascii Hw Hhigh.
  rewrite <- isascii_lower in Hascii.
  apply (split_isascii " ") in Hascii. rewrite Hw in Hascii.
  inversion Hascii as [|? ? _ Hrest]; subst.
  inversion Hrest as [|? ? Ht _]; subst. congruence.
Qed.

(** Every way a call of [respond] goes, on a message of a stream and a bot
    whose validator is as [get_time] leaves them. *)
Lemma respond_cases (p : process) (m : list (list ascii * list ascii))
    (c subject to : str) :
  sane (validator p) ->
  lookup m (lit "content") = Some c ->
  lookup m (lit "subject") = Some subject ->
  lookup m (lit "display_recipient") = Some to ->
  (hd [] (split " " (lower c)) <> key_word p /\
   respond_to p m = (inl tt, with_msg p m)) \/
  (split " " (lower c) = [key_word p] /\
   respond_to p m = (inr (Builtin IndexError), with_msg p m)) \/
  ((exists rest, split " " (lower c) = key_word p :: lit "crash" :: rest) /\
   respond_to p m = (inr ZeroDivisionError, with_msg p m)) \/
  (exists t rest,
     split " " (lower c) = key_word p :: t :: rest /\ t <> lit "crash" /\
     isascii t = false /\
     respond_to p m = (inr UnicodeDecodeError, with_msg p m)) \/
  (exists t rest b,
     split " " (lower c) = key_word p :: t :: rest /\ t <> lit "crash" /\
     isascii t = true /\
     ret (get_time (validator p) t) = Ok b /\
     respond_to p m
     = (inl tt,
        mkProcess (key_word p) (bot (get_time (validator p) t))
          (console p ++ out (get_time (validator p) t))
          (sent p ++ [stream_message subject to (reply_to t b)])
          (store m (lit "content") (reply_to t b)))).
Proof.
  intros Hsane Hc Hs Ht.
  pose proof (split_nonempty " " (lower c)) as Hne.
  destruct (split " " (lower c)) as [|w0 ws] eqn:E; [contradiction|].
  destruct (eqb_str w0 (key_word p)) eqn:Hkw.
  - apply eqb_str_eq in Hkw. subst w0.
    destruct ws as [|t rest].
    + right. left. split; [reflexivity|].
      rewrite (respond_eq p m c Hc), E. cbn [hd nth_error].
      now rewrite eqb_str_refl.
    + destruct (eqb_str t (lit "crash")) eqn:Hcrash.
      * right. right. left. apply eqb_str_eq in Hcrash. subst t.
        split; [now exists rest|].
        rewrite (respond_eq p m c Hc), E. cbn [hd nth_error].
        now rewrite eqb_str_refl.
      * right. right. right. apply eqb_str_neq in Hcrash.
        destruct (isascii t) eqn:Hascii.
        -- right.
           destruct (respond_answers p m c t rest subject to
                       Hsane Hc E Hcrash Hascii Hs Ht) as (b & Hb & Hrun).
           exists t, rest, b. auto.
        -- left. exists t, rest.
           rewrite (respond_eq p m c Hc), E. cbn [hd nth_error skipn].
           rewrite eqb_str_refl.
           pose proof Hcrash as Hcrash'. apply eqb_str_neq in Hcrash'.
           rewrite Hcrash'. unfold bind_P at 1.
           rewrite (parse_command_undecoded _ t rest Hascii). auto.
  - left. split.
    + apply eqb_str_neq in Hkw. exact Hkw.
    + rewrite (respond_eq p m c Hc), E. cbn [hd]. now rewrite Hkw.
Qed.

Lemma snoc_neq {A} (l : list A) (a : A) : l ++ [a] <> l.
Proof.
  intros H. apply (f_equal (@length A)) in H.
  rewrite length_app in H. simpl in H. lia.
Qed.

(** X12.  On a message of a stream, [respond] does nothing at all (it
    returns, hands nothing to the client, prints nothing and leaves [msg]
    and the validator as they are) if and only if the content up to its
    first space, in lower case, is not the key word; so for an empty
    content. *)
Theorem respond_ignores (p : process) (m : list (list ascii * list ascii))
    (c subject to : str) :
  sane (validator p) ->
  lookup m (lit "content") = Some c ->
  lookup m (lit "subject") = Some subject ->
  lookup m (lit "display_recipient") = Some to ->
  (respond_to p m = (inl tt, with_msg p m) <->
   hd [] (split " " (lower c)) <> key_word p).
Proof.
  intros Hsane Hc Hs Ht.
  destruct (respond_cases p m c subject to Hsane Hc Hs Ht)
    as [[Hhd Hrun] | [[Hw Hrun] | [[(rest & Hw) Hrun]
        | [(t & rest & Hw & _ & _ & Hrun)
          | (t & rest & b & Hw & _ & _ & _ & Hrun)]]]];
    rewrite Hrun; split.
  - intros _. exact Hhd.
  - reflexivity.
  - discriminate.
  - intros H. rewrite Hw in H. now elim H.
  - discriminate.
  - intros H. rewrite Hw in H. now elim H.
  - discriminate.
  - intros H. rewrite Hw in H. now elim H.
  - intros H. injection H as _ _ Hsent _. exfalso. eapply snoc_neq, Hsent.
  - intros H. rewrite Hw in H. now elim H.
Qed.

Lemma respond_ignores_witness :
  respond_to (construct (lit "DelayBot"))
    [(lit "content", lit "delaybots 1d");
     (lit "subject", lit "timers"); (lit "display_recipient", lit "test-bot")]
  = (inl tt,
     with_msg (construct (lit "DelayBot"))
       [(lit "content", lit "delaybots 1d");
        (lit "subject", lit "timers");
        (lit "display_recipient", lit "test-bot")]).
Proof.
  apply (respond_ignores (construct (lit "DelayBot")) _ (lit "delaybots 1d")
           (lit "timers") (lit "test-bot")).
  - exact new_bot_sane.
  - reflexivity.
  - reflexivity.
  - reflexivity.
  - discriminate.
Defined.

(** X13.  On a message of a stream whose content is of ASCII characters
    and a bot whose validator is as [get_time] leaves them, [respond] raises
    in two cases only: [IndexError] when the content in lower case is the
    key word alone, with no space after it, and [ZeroDivisionError] when the
    key word is followed by the word "crash" in any case; in both, nothing
    is handed to the client and the process is left as it was. *)
Theorem respond_raises (p : process) (m : list (list ascii * list ascii))
    (c subject to : str) (e : exception) (q : process) :
  sane (validator p) ->
  lookup m (lit "content") = Some c ->
  isascii c = true ->
  lookup m (lit "subject") = Some subject ->
  lookup m (lit "display_recipient") = Some to ->
  (respond_to p m = (inr e, q) <->
   q = with_msg p m /\
   ((e = Builtin IndexError /\ split " " (lower c) = [key_word p]) \/
    (e = ZeroDivisionError /\
     exists rest, split " " (lower c) = key_word p :: lit "crash" :: rest))).
Proof.
  intros Hsane Hc Hascii Hs Ht.
  destruct (respond_cases p m c subject to Hsane Hc Hs Ht)
    as [[Hhd Hrun] | [[Hw Hrun] | [[(rest & Hw) Hrun]
        | [(t & rest & Hw & _ & Hhigh & _)
          | (t & rest & b & Hw & Hcrash & _ & _ & Hrun)]]]].
  4: exfalso; exact (second_word_isascii c (key_word p) t rest Hascii Hw Hhigh).
  all: rewrite Hrun; split.
  - discriminate.
  - intros (_ & [[_ H] | [_ (rest & H)]]); rewrite H in Hhd; now elim Hhd.
  - intros H. injection H as <- <-. auto.
  - intros (-> & [[-> _] | [_ (rest & H)]]); [reflexivity|].
    rewrite H in Hw. discriminate.
  - intros H. injection H as <- <-. split; [reflexivity|]. right. eauto.
  - intros (-> & [[_ H] | [-> _]]); [|reflexivity].
    rewrite H in Hw. discriminate.
  - discriminate.
  - intros (_ & [[_ H] | [_ (rest' & H)]]); rewrite H in Hw;
      [discriminate|]. injection Hw as <- _. now elim Hcrash.
Qed.

Lemma respond_raises_witness :
  respond_to (construct (lit "DelayBot"))
    [(lit "content", lit "DelayBot");
     (lit "subject", lit "timers"); (lit "display_recipient", lit "test-bot")]
  = (inr (Builtin IndexError),
     with_msg (construct (lit "DelayBot"))
       [(lit "content", lit "DelayBot");
        (lit "subject", lit "timers");
        (lit "display_recipient", lit "test-bot")]).
Proof.
  apply (respond_raises (construct (lit "DelayBot")) _ (lit "DelayBot")
           (lit "timers") (lit "test-bot")).
  - exact new_bot_sane.
  - reflexivity.
  - reflexivity.
  - reflexivity.
  - reflexivity.
  - split; [reflexivity|]. left. split; reflexivity.
Defined.

Lemma mem_space_lower (s : str) : mem_c " " (lower s) = mem_c " " s.
Proof.
  induction s as [|c s IH]; simpl; [reflexivity|].
  now rewrite (eqb_c_sym " " (lower_c c)), lower_c_space, (eqb_c_sym c " "), IH.
Qed.

(** X14.  A bot constructed with a key word that holds a space answers no
    message: whatever its content, [respond] returns having done nothing,
    since no piece of [content.split(" ")] holds a space. *)
Theorem phrase_key_word_never_matches (key : str)
    (m : list (list ascii * list ascii)) (c : str) :
  mem_c " " key = true ->
  lookup m (lit "content") = Some c ->
  respond_to (construct key) m = (inl tt, with_msg (construct key) m).
Proof.
  intros Hspace Hc. rewrite (respond_eq _ m c Hc).
  destruct (eqb_str _ _) eqn:E; [exfalso | reflexivity].
  apply eqb_str_eq in E. cbn [construct key_word] in E.
  pose proof (split_pieces " " (lower c)) as Hpieces.
  pose proof (split_nonempty " " (lower c)) as Hne.
  destruct (split " " (lower c)) as [|w ws]; [contradiction|].
  inversion Hpieces as [|? ? Hw _]; subst. cbn [hd] in E. subst w.
  rewrite mem_space_lower, Hspace in Hw. discriminate.
Qed.

Lemma phrase_key_word_never_matches_witness :
  respond_to (construct (lit "delay bot"))
    [(lit "content", lit "delay bot 1d")]
  = (inl tt,
     with_msg (construct (lit "delay bot")) [(lit "content", lit "delay bot 1d")]).
Proof.
  apply (phrase_key_word_never_matches (lit "delay bot") _ (lit "delay bot 1d"));
    reflexivity.
Defined.

Lemma get_time_sane (me : DelayBot) (tok : str) :
  sane me -> sane (bot (get_time me tok)).
Proof.
  intros Hsane.
  destruct (get_time_returns me tok Hsane) as (b & _ & [-> | ->] & _);
    [assumption | now apply in_12h_sane].
Qed.

(** X15.  On a message of a stream whose content is of ASCII characters
    and a bot whose validator is as [get_time] leaves them, a call of
    [respond] raises nothing but
    [IndexError] and [ZeroDivisionError], keeps the key word, leaves the
    validator as [get_time] leaves them, never removes a dict handed to the
    client and hands over one more at most, and none when it raises. *)
Theorem respond_is_safe (p : process) (m : list (list ascii * list ascii))
    (c subject to : str) :
  sane (validator p) ->
  lookup m (lit "content") = Some c ->
  isascii c = true ->
  lookup m (lit "subject") = Some subject ->
  lookup m (lit "display_recipient") = Some to ->
  exists (r : unit + exception) (q : process),
    respond_to p m = (r, q) /\
    (r = inl tt \/ r = inr (Builtin IndexError) \/ r = inr ZeroDivisionError) /\
    key_word q = key_word p /\
    sane (validator q) /\
    (sent q = sent p \/ (r = inl tt /\ exists d, sent q = sent p ++ [d])).
Proof.
  intros Hsane Hc Hascii Hs Ht.
  destruct (respond_cases p m c subject to Hsane Hc Hs Ht)
    as [[_ Hrun] | [[_ Hrun] | [[_ Hrun]
        | [(t & rest & Hw & _ & Hhigh & _)
          | (t & rest & b & _ & _ & _ & _ & Hrun)]]]].
  4: exfalso; exact (second_word_isascii c (key_word p) t rest Hascii Hw Hhigh).
  all: rewrite Hrun; eexists _, _; (split; [reflexivity|]).
  - split; [now left|]. split; [reflexivity|]. split; [exact Hsane | now left].
  - split; [right; now left|]. split; [reflexivity|].
    split; [exact Hsane | now left].
  - split; [right; now right|]. split; [reflexivity|].
    split; [exact Hsane | now left].
  - split; [now left|]. split; [reflexivity|].
    split; [now apply get_time_sane|].
    right. split; [reflexivity|]. eexists. reflexivity.
Qed.

Lemma respond_is_safe_witness :
  exists (r : unit + exception) (q : process),
    respond_to (construct (lit "DelayBot"))
      [(lit "content", lit "delaybot 12:59pm");
       (lit "subject", lit "timers"); (lit "display_recipient", lit "test-bot")]
    = (r, q) /\
    (r = inl tt \/ r = inr (Builtin IndexError) \/ r = inr ZeroDivisionError) /\
    key_word q = key_word (construct (lit "DelayBot")) /\
    sane (validator q) /\
    (sent q = sent (construct (lit "DelayBot")) \/
     (r = inl tt /\ exists d, sent q = sent (construct (lit "DelayBot")) ++ [d])).
Proof.
  apply (respond_is_safe (construct (lit "DelayBot")) _ (lit "delaybot 12:59pm")
           (lit "timers") (lit "test-bot")).
  - exact new_bot_sane.
  - reflexivity.
  - reflexivity.
  - reflexivity.
  - reflexivity.
Defined.

(** X16.  A message without a content makes [respond] raise [KeyError]
    having done nothing.  A message with a content that [respond] answers,
    its second word being of ASCII characters and not "crash", but without
    a subject makes it raise [KeyError] in [send_message]:
    nothing is handed to the client, yet the token has been validated and
    the content of [msg] overwritten with the reply. *)
Theorem respond_missing_key (p : process) (m : list (list ascii * list ascii)) :
  (lookup m (lit "content") = None ->
   respond_to p m = (inr (Builtin KeyError), with_msg p m)) /\
  (forall (c t : str) (rest : list str),
      sane (validator p) ->
      lookup m (lit "content") = Some c ->
      split " " (lower c) = key_word p :: t :: rest ->
      t <> lit "crash" ->
      isascii t = true ->
      lookup m (lit "subject") = None ->
      exists b,
        ret (get_time (validator p) t) = Ok b /\
        respond_to p m
        = (inr (Builtin KeyError),
           mkProcess (key_word p) (bot (get_time (validator p) t))
             (console p ++ out (get_time (validator p) t)) (sent p)
             (store m (lit "content") (reply_to t b)))).
Proof.
  split.
  - intros Hc. unfold respond_to, respond, bind_P, msg_getitem. cbn [msg].
    now rewrite Hc.
  - intros c t rest Hsane Hc Hwords Hcrash Hascii Hs.
    rewrite (respond_eq p m c Hc), Hwords. cbn [hd nth_error skipn].
    rewrite eqb_str_refl.
    apply eqb_str_neq in Hcrash. rewrite Hcrash.
    destruct (parse_command_cons (with_msg p m) t rest Hsane Hascii)
      as (b & Hb & Hrun).
    exists b. split; [exact Hb|].
    unfold bind_P at 1. rewrite Hrun.
    unfold bind_P at 1. cbn [msg_setitem].
    unfold send_message, bind_P, msg_getitem.
    cbn [msg validated with_msg].
    rewrite lookup_store_other by reflexivity. now rewrite Hs.
Qed.

Lemma respond_missing_key_witness :
  respond_to (construct (lit "DelayBot")) [(lit "subject", lit "timers")]
  = (inr (Builtin KeyError),
     with_msg (construct (lit "DelayBot")) [(lit "subject", lit "timers")]).
Proof.
  destruct (respond_missing_key (construct (lit "DelayBot"))
              [(lit "subject", lit "timers")]) as [H _].
  apply H. reflexivity.
Defined.

(* ================================================================== *)
(** ** One message after another *)
(* ================================================================== *)

Lemma get_time_hour_above_12 (h m : str) :
  two_digits h -> two_digits m -> (12 < dec_val h)%Z ->
  get_time (in_12h new_bot) (h ++ lit ":" ++ m)
  = mkOutcome (Ok false) (in_12h new_bot) [ValueTooHigh h 12 0].
Proof.
  intros (Hh2 & Hh) (Hm2 & Hm) Hhigh.
  change (h ++ lit ":" ++ m) with (join ":" ([h] ++ [m])).
  rewrite get_time_plain_token;
    [| reflexivity | now left | repeat constructor; assumption | lia].
  unfold bind. cbn [app].
  now rewrite (clock_loop_too_high h [m] 0 _ 12).
Qed.

Lemma two_digits_not_crash (h m : str) :
  two_digits h -> h ++ lit ":" ++ m <> lit "crash".
Proof.
  intros (Hlen & Hdig) E.
  destruct h as [|a [|b [|c h]]]; try discriminate Hlen.
  injection E as -> -> _. discriminate Hdig.
Qed.

Lemma two_digits_isascii (h m : str) :
  two_digits h -> two_digits m -> isascii (h ++ lit ":" ++ m) = true.
Proof.
  intros (_ & Hh) (_ & Hm). rewrite !isascii_app.
  now rewrite (digits_isascii h Hh), (digits_isascii m Hm).
Qed.

(** X17.  The bot answers a message whose token is of ASCII characters and
    holds a colon and a candidate among AM, PM, A.M., P.M.; its validator
    then has the hour limit 12, and it answers a later message whose token
    is [HH:MM] with an hour above 12 by "... is not proper!!!! nope". *)
Theorem meridiem_message_then_afternoon
    (p : process) (prior : list str)
    (m1 m2 : list (list ascii * list ascii))
    (c1 c2 t1 h mi subject1 to1 subject2 to2 : str) (rest1 rest2 : list str) :
  validator p = after new_bot prior ->
  lookup m1 (lit "content") = Some c1 ->
  split " " (lower c1) = key_word p :: t1 :: rest1 ->
  t1 <> lit "crash" ->
  isascii t1 = true ->
  mem_c ":" (upper t1) = true ->
  In (candidate (upper t1)) markers ->
  lookup m1 (lit "subject") = Some subject1 ->
  lookup m1 (lit "display_recipient") = Some to1 ->
  lookup m2 (lit "content") = Some c2 ->
  split " " (lower c2) = key_word p :: (h ++ lit ":" ++ mi) :: rest2 ->
  two_digits h -> two_digits mi -> (12 < dec_val h)%Z ->
  lookup m2 (lit "subject") = Some subject2 ->
  lookup m2 (lit "display_recipient") = Some to2 ->
  exists q q' : process,
    respond_to p m1 = (inl tt, q) /\
    validator q = in_12h new_bot /\
    respond_to q m2 = (inl tt, q') /\
    sent q' = sent q
              ++ [stream_message subject2 to2
                    (reply_to (h ++ lit ":" ++ mi) false)].
Proof.
  intros Hv Hc1 Hw1 Hcrash1 Hascii1 Hcolon Hin Hs1 Ht1 Hc2 Hw2 Hh Hmi Hhigh
         Hs2 Ht2.
  assert (Hsane : sane (validator p))
    by (rewrite Hv; apply after_sane, new_bot_sane).
  destruct (respond_answers p m1 c1 t1 rest1 subject1 to1
              Hsane Hc1 Hw1 Hcrash1 Hascii1 Hs1 Ht1) as (b1 & _ & Hrun1).
  assert (Hq : bot (get_time (validator p) t1) = in_12h new_bot).
  { rewrite (get_time_bot _ t1 Hsane).
    apply in_markers in Hin as [Hmem Hne].
    rewrite Hcolon, Hmem, Hne, Hv. cbn [andb negb].
    apply (after_new_bot_tables prior). }
  rewrite Hrun1, Hq. eexists _, _. split; [reflexivity|].
  split; [reflexivity|].
  match goal with
  | |- respond_to ?q _ = _ /\ _ =>
      destruct (respond_answers q m2 c2 (h ++ lit ":" ++ mi) rest2 subject2 to2)
        as (b2 & Hb2 & Hrun2)
  end; auto.
  - apply in_12h_sane, new_bot_sane.
  - now apply two_digits_not_crash.
  - now apply two_digits_isascii.
  - cbn [validator] in Hb2, Hrun2.
    rewrite (get_time_hour_above_12 h mi Hh Hmi Hhigh) in Hb2, Hrun2.
    injection Hb2 as <-. rewrite Hrun2. split; reflexivity.
Qed.

Lemma meridiem_message_then_afternoon_witness :
  exists q q' : process,
    respond_to (construct (lit "DelayBot"))
      [(lit "content", lit "delaybot 11:30PM");
       (lit "subject", lit "a"); (lit "display_recipient", lit "s")]
    = (inl tt, q) /\
    validator q = in_12h new_bot /\
    respond_to q
      [(lit "content", lit "delaybot 18:45");
       (lit "subject", lit "b"); (lit "display_recipient", lit "s")]
    = (inl tt, q') /\
    sent q' = sent q
              ++ [stream_message (lit "b") (lit "s")
                    (reply_to (lit "18" ++ lit ":" ++ lit "45") false)].
Proof.
  apply (meridiem_message_then_afternoon (construct (lit "DelayBot")) []
           [(lit "content", lit "delaybot 11:30PM");
            (lit "subject", lit "a"); (lit "display_recipient", lit "s")]
           [(lit "content", lit "delaybot 18:45");
            (lit "subject", lit "b"); (lit "display_recipient", lit "s")]
           (lit "delaybot 11:30PM") (lit "delaybot 18:45") (lit "11:30pm")
           (lit "18") (lit "45") (lit "a") (lit "s") (lit "b") (lit "s")
           [] []);
    try reflexivity; try discriminate; try (split; reflexivity).
  right. now left.
Defined.

(* ================================================================== *)
(** ** Tokens of ASCII characters *)
(* ================================================================== *)

(** X19.  Whatever was validated before, on every token of ASCII characters,
    the empty one included, the call returns [True] or [False]: no
    statement of [get_time] raises.  The pattern guards [int] and the
    lookup in [blockLimits] in the block branch; [isdigit] guards [int] and
    the test of the length guards [clockLimits[x]] in the clock branch. *)
Theorem get_time_returns_on_ascii (prior : list str) (arg : str) :
  isascii arg = true ->
  exists b : bool, ret (get_time (after new_bot prior) arg) = Ok b.
Proof.
  intros _.
  destruct (get_time_returns (after new_bot prior) arg
              (after_sane prior new_bot new_bot_sane)) as (b & Hb & _).
  now exists b.
Qed.

Lemma get_time_returns_on_ascii_witness :
  exists b : bool,
    ret (get_time (after new_bot [lit "12:59AM"]) (lit "1:x2:?")) = Ok b.
Proof.
  apply (get_time_returns_on_ascii [lit "12:59AM"] (lit "1:x2:?")).
  reflexivity.
Defined.
